(** * Lorentz embeddings: geometry primitives, Riemannian SGD and ranking loss

    A shallow embedding of [marco.py].  Tensors of shape (B, D) are MathComp
    matrices ['M[fval]_(B, D)]; a 1-D tensor of size B is a column
    ['cV[fval]_B].  The ambient dimension is written [D.+1] so that column 0
    (the time-like coordinate) always exists, as the source requires
    ([m[:, 0]], [gl[0, 0] = -1]).

    Tensor entries are IEEE-style values [fval]: a finite real, one of the two
    infinities, or NaN.  Arithmetic on the special values follows IEEE 754
    (Inf - Inf = NaN, 0 * Inf = NaN, 0 / 0 = NaN, sqrt of a negative is NaN,
    every comparison with NaN is false).  The tensors of the source are
    single-precision ([nn.Embedding] and [torch.eye(D, dtype=p.dtype)]): a
    sum, product, quotient, exponential or hyperbolic function whose exact
    value lies beyond the largest finite single-precision number [fmax]
    overflows to the infinity of its sign.  Within that range arithmetic is
    exact: rounding and underflow are not modelled (nor is the rounding of a
    value just above [fmax] down to [fmax]), and zero carries no sign (a
    division of a non-zero finite value by zero takes the sign of the
    numerator).  Sums are taken from the last term to the first, and a norm
    is the square root of the sum of the squares, computed in this
    arithmetic.

    The graph generator [insert] and the loop of the script that builds the
    training pairs work on lists of node numbers; the outcomes of the random
    generators ([uniform_], [permutation], [randint]) are arguments of the
    modelled functions. *)

From Stdlib Require Import Reals Lra.
From HB Require Import structures.
From mathcomp Require Import ssreflect ssrfun ssrbool eqtype ssrnat seq choice.
From mathcomp Require Import fintype finfun bigop matrix.

Set Implicit Arguments.
Unset Strict Implicit.
Unset Printing Implicit Defensive.
Set Warnings "-rewrite-rw,-redundant-canonical-projection".

Local Open Scope ring_scope.
Local Open Scope R_scope.

(** ** Tensor entries *)

Inductive fval : Type :=
| Fin (r : R)
| PInf
| NInf
| NaN.

Definition Rltb (a b : R) : bool := if Rlt_dec a b then true else false.

(** The largest finite single-precision number, [(2 - 2^-23) * 2^127]. *)
Definition fmax : R := (2 ^ 24 - 1) * 2 ^ 104.

(** The result of an operation whose exact value is [r]: the infinity of its
    sign when [r] lies beyond [fmax]. *)
Definition overflow (r : R) : fval :=
  if Rlt_dec fmax r then PInf
  else if Rlt_dec r (- fmax) then NInf
  else Fin r.

(** Sign of a finite value: [Gt] positive, [Lt] negative, [Eq] zero. *)
Definition Rsign (r : R) : comparison :=
  if Rlt_dec 0 r then Gt else if Rlt_dec r 0 then Lt else Eq.

Definition fneg (x : fval) : fval :=
  match x with
  | Fin a => Fin (- a)
  | PInf => NInf
  | NInf => PInf
  | NaN => NaN
  end.

Definition fadd (x y : fval) : fval :=
  match x, y with
  | NaN, _ | _, NaN => NaN
  | PInf, NInf | NInf, PInf => NaN
  | PInf, _ | _, PInf => PInf
  | NInf, _ | _, NInf => NInf
  | Fin a, Fin b => overflow (a + b)
  end.

Definition fsub (x y : fval) : fval := fadd x (fneg y).

Definition fmul (x y : fval) : fval :=
  match x, y with
  | NaN, _ | _, NaN => NaN
  | Fin a, Fin b => overflow (a * b)
  | Fin a, PInf | PInf, Fin a =>
      match Rsign a with Gt => PInf | Lt => NInf | Eq => NaN end
  | Fin a, NInf | NInf, Fin a =>
      match Rsign a with Gt => NInf | Lt => PInf | Eq => NaN end
  | PInf, PInf | NInf, NInf => PInf
  | PInf, NInf | NInf, PInf => NInf
  end.

Definition fdiv (x y : fval) : fval :=
  match x, y with
  | NaN, _ | _, NaN => NaN
  | Fin a, Fin b =>
      if Req_dec_T b 0
      then match Rsign a with Gt => PInf | Lt => NInf | Eq => NaN end
      else overflow (a / b)
  | Fin _, (PInf | NInf) => Fin 0
  | PInf, Fin b => if Rlt_dec b 0 then NInf else PInf
  | NInf, Fin b => if Rlt_dec b 0 then PInf else NInf
  | (PInf | NInf), (PInf | NInf) => NaN
  end.

Definition fsqrt (x : fval) : fval :=
  match x with
  | Fin a => if Rlt_dec a 0 then NaN else Fin (sqrt a)
  | PInf => PInf
  | NInf | NaN => NaN
  end.

Definition fexp (x : fval) : fval :=
  match x with
  | Fin a => overflow (exp a)
  | PInf => PInf
  | NInf => Fin 0
  | NaN => NaN
  end.

Definition flog (x : fval) : fval :=
  match x with
  | Fin a =>
      if Rlt_dec a 0 then NaN else if Req_dec_T a 0 then NInf else Fin (ln a)
  | PInf => PInf
  | NInf | NaN => NaN
  end.

Definition fcosh (x : fval) : fval :=
  match x with
  | Fin a => overflow (cosh a)
  | PInf | NInf => PInf
  | NaN => NaN
  end.

Definition fsinh (x : fval) : fval :=
  match x with
  | Fin a => overflow (sinh a)
  | PInf => PInf
  | NInf => NInf
  | NaN => NaN
  end.

(** [x < y]; false as soon as one side is NaN. *)
Definition fltb (x y : fval) : bool :=
  match x, y with
  | NaN, _ | _, NaN => false
  | Fin a, Fin b => Rltb a b
  | NInf, (Fin _ | PInf) => true
  | Fin _, PInf => true
  | _, _ => false
  end.

Definition isnan (x : fval) : bool := if x is NaN then true else false.

Definition isinf (x : fval) : bool :=
  match x with PInf | NInf => true | _ => false end.

Definition isfinite (x : fval) : bool := if x is Fin _ then true else false.

(** An entry that is zero or NaN. *)
Definition zero_or_nan (x : fval) : Prop := x = Fin 0 \/ x = NaN.

(** ** Torch primitives on tensors *)

Section Torch.

Variables B D : nat.

(** [t.sum(dim=1)] *)
Definition sum_dim1 (t : 'M[fval]_(B, D)) : 'cV[fval]_B :=
  \col_i \big[fadd/Fin 0]_(j < D) t i j.

(** [torch.norm(t, dim=1)]: the 2-norm of every row. *)
Definition norm_dim1 (t : 'M[fval]_(B, D)) : 'cV[fval]_B :=
  \col_i fsqrt (\big[fadd/Fin 0]_(j < D) fmul (t i j) (t i j)).

(** [torch.norm(t)]: the 2-norm of the whole tensor, a scalar. *)
Definition norm_all (t : 'M[fval]_(B, D)) : fval :=
  fsqrt (\big[fadd/Fin 0]_(i < B) \big[fadd/Fin 0]_(j < D) fmul (t i j) (t i j)).

(** [torch.where(c, a, b)] *)
Definition where_ (c : 'M[bool]_(B, D)) (a b : 'M[fval]_(B, D)) :
  'M[fval]_(B, D) :=
  \matrix_(i, j) if c i j then a i j else b i j.

(** [a @ b] *)
Definition matmul (K : nat) (a : 'M[fval]_(B, K)) (b : 'M[fval]_(K, D)) :
  'M[fval]_(B, D) :=
  \matrix_(i, j) \big[fadd/Fin 0]_(k < K) fmul (a i k) (b k j).

End Torch.

(** ** Geometry primitives *)

(** [torch.log(x + torch.sqrt(x ** 2 - 1))] *)
Definition arcosh (x : fval) : fval :=
  flog (fadd x (fsqrt (fsub (fmul x x) (Fin 1)))).

Section Geometry.

Variables B D : nat.
Implicit Types x y v : 'M[fval]_(B, D.+1).

(** [m = x * y; m[:, 1:].sum(dim=1) - m[:, 0]] *)
Definition lorentz_scalar_product x y : 'cV[fval]_B :=
  let m := map2_mx fmul x y in
  map2_mx fsub (sum_dim1 (col' ord0 m)) (col ord0 m).

(** [torch.sqrt(lorentz_scalar_product(x, x))] *)
Definition tangent_norm x : 'cV[fval]_B :=
  map_mx fsqrt (lorentz_scalar_product x x).

(** [tn] is the tangent norm as a column, [tn_expand] its repetition along
    the columns; [result = cosh(tn) * x + sinh(tn) * (v / tn)] and
    [torch.where(tn_expand > 0, result, x)]. *)
Definition exp_map x v : 'M[fval]_(B, D.+1) :=
  let tn : 'cV[fval]_B := tangent_norm v in
  let tn_expand : 'M[fval]_(B, D.+1) := \matrix_(i, j) tn i ord0 in
  let result : 'M[fval]_(B, D.+1) :=
    \matrix_(i, j)
      fadd (fmul (fcosh (tn i ord0)) (x i j))
           (fmul (fsinh (tn i ord0)) (fdiv (v i j) (tn i ord0))) in
  where_ (map_mx (fltb (Fin 0)) tn_expand) result x.

End Geometry.

(** ** The Riemannian SGD optimizer *)

Section RSGD.

Variables B D : nat.

(** A parameter tensor [p] with its gradient slot [p.grad]. *)
Record param : Type := Param {
  data : 'M[fval]_(B, D.+1);
  grad : option 'M[fval]_(B, D.+1)
}.

Record param_group : Type := ParamGroup {
  params : seq param;
  learning_rate : fval
}.

Record RSGD : Type := MkRSGD { param_groups : seq param_group }.

(** [RSGD.__init__]: one group, the learning rate defaulting to 0.01. *)
Definition RSGD_init (ps : seq param) (lr : option fval) : RSGD :=
  let lr := if lr is Some l then l else Fin (1 / 100) in
  MkRSGD [:: ParamGroup ps lr].

(** [gl = torch.eye(D); gl[0, 0] = -1] *)
Definition gl : 'M[fval]_(D.+1, D.+1) :=
  let eye : 'M[fval]_(D.+1, D.+1) :=
    \matrix_(i, j) if i == j then Fin 1 else Fin 0 in
  \matrix_(i, j) if (i == ord0) && (j == ord0) then Fin (- 1) else eye i j.

(** [h = (p.grad.data / grad_norm) @ gl] *)
Definition riemannian_grad (g : 'M[fval]_(B, D.+1)) : 'M[fval]_(B, D.+1) :=
  let grad_norm := norm_all g in
  matmul (map_mx (fun e => fdiv e grad_norm) g) gl.

(** [proj = h - (lsp(p, h) / lsp(p, p)).unsqueeze(1) * p] *)
Definition tangent_proj (p h : 'M[fval]_(B, D.+1)) : 'M[fval]_(B, D.+1) :=
  let c : 'cV[fval]_B :=
    map2_mx fdiv (lorentz_scalar_product p h) (lorentz_scalar_product p p) in
  \matrix_(i, j) fsub (h i j) (fmul (c i ord0) (p i j)).

(** Lines 68-69: [torch.where(isnan(update) | isinf(update), p, update)]. *)
Definition nan_inf_fallback (p update : 'M[fval]_(B, D.+1)) :
  'M[fval]_(B, D.+1) :=
  let is_nan_inf := map_mx (fun e => isnan e || isinf e) update in
  where_ is_nan_inf p update.

(** Lines 70-71 (and 88-89 of the constructor):
    [dim0 = sqrt(1 + norm(t[:, 1:], dim=1)); t[:, 0] = dim0]. *)
Definition set_dim0 (t : 'M[fval]_(B, D.+1)) : 'M[fval]_(B, D.+1) :=
  let dim0 : 'cV[fval]_B :=
    map_mx fsqrt (map_mx (fadd (Fin 1)) (norm_dim1 (col' ord0 t))) in
  \matrix_(i, j) if j == ord0 then dim0 i ord0 else t i j.

(** The body of the loop of [RSGD.step] for a parameter whose gradient is
    present: the value copied into [p.data].  The second [grad_norm] of the
    source (line 66) is bound and never read, as there. *)
Definition step_update (lr : fval) (p g : 'M[fval]_(B, D.+1)) :
  'M[fval]_(B, D.+1) :=
  let h := riemannian_grad g in
  let proj := tangent_proj p h in
  let grad_norm : 'M[fval]_(B, D.+1) := \matrix_(i, j) norm_dim1 g i ord0 in
  let update := exp_map p (map_mx (fmul (fneg lr)) proj) in
  let update := nan_inf_fallback p update in
  set_dim0 update.

(** [if p.grad is None: continue], else [p.data.copy_(update)]. *)
Definition step_param (lr : fval) (p : param) : param :=
  match grad p with
  | None => p
  | Some g => Param (step_update lr (data p) g) (grad p)
  end.

Definition step_group (group : param_group) : param_group :=
  ParamGroup (map (step_param (learning_rate group)) (params group))
             (learning_rate group).

(** [RSGD.step] *)
Definition step (self : RSGD) : RSGD :=
  MkRSGD (map step_group (param_groups self)).

End RSGD.

(** ** The embedding model *)

Section Lorentz.

Variables n_items D : nat.

Record Lorentz : Type := MkLorentz { table : 'M[fval]_(n_items, D.+1) }.

(** [Lorentz.__init__].  [w] is the outcome of
    [nn.init.uniform_(self.table.weight, -init_range, init_range)]: the
    random draw is an argument. *)
Definition Lorentz_init (w : 'M[fval]_(n_items, D.+1)) : Lorentz :=
  MkLorentz (set_dim0 w).

(** What [uniform_] promises about the draw. *)
Definition uniform_draw (init_range : R) (w : 'M[fval]_(n_items, D.+1)) : Prop :=
  forall i j, exists r, w i j = Fin r /\ - init_range <= r <= init_range.

Section Forward.

Variables B N : nat.

(** Row [r] of a (B * N, D) reshape of a (B, N, D) tensor is entry
    [(b, k)] with [r = b * N + k]. *)
Definition flat_index (r : 'I_(B * N)) : 'I_B * 'I_N :=
  enum_val (cast_ord (esym (mxvec_cast B N)) r).

(** [t.reshape(B * N, D)] of a tensor of shape (B, N, D). *)
Definition reshape_rows (t : 'I_B -> 'M[fval]_(N, D.+1)) :
  'M[fval]_(B * N, D.+1) :=
  \matrix_(r, j) t (flat_index r).1 (flat_index r).2 j.

(** [d.reshape(B, N)] of a 1-D tensor of size B * N. *)
Definition reshape_BN (d : 'cV[fval]_(B * N)) : 'M[fval]_(B, N) :=
  \matrix_(b, k) d (mxvec_index b k) ord0.

End Forward.

(** [self.table(I)] for a 1-D index tensor. *)
Definition lookup B (self : Lorentz) (I : 'cV['I_n_items]_B) :
  'M[fval]_(B, D.+1) :=
  \matrix_(b, j) table self (I b ord0) j.

(** Lines 113-121 of [forward]: the rows of the anchors, stacked once per
    candidate, and the rows of the candidates, both reshaped to (B * N, D);
    [dists = -lorentz_scalar_product(ui, uks)] and
    [torch.where(dists < 1, torch.ones_like(dists), dists)], the argument
    of [arcosh]. *)
Definition clamped_args B N (self : Lorentz)
    (I : 'cV['I_n_items]_B) (Ks : 'M['I_n_items]_(B, N)) : 'cV[fval]_(B * N) :=
  let ui : 'I_B -> 'M[fval]_(N, D.+1) :=
    fun b => \matrix_(k, j) lookup self I b j in
  let uks : 'I_B -> 'M[fval]_(N, D.+1) :=
    fun b => \matrix_(k, j) table self (Ks b k) j in
  let ui := reshape_rows ui in
  let uks := reshape_rows uks in
  let dists := map_mx fneg (lorentz_scalar_product ui uks) in
  where_ (map_mx (fun d => fltb d (Fin 1)) dists) (const_mx (Fin 1)) dists.

(** [Lorentz.forward], lines 125-129: [dists = -arcosh(dists)], reshaped to
    (B, N), and
    [loss = -(dists[:, 0] - torch.log(torch.exp(dists).sum(dim=1) + 1e-6))];
    the loss per anchor and the table are returned. *)
Definition forward B N (self : Lorentz)
    (I : 'cV['I_n_items]_B) (Ks : 'M['I_n_items]_(B, N.+1)) :
  'cV[fval]_B * 'M[fval]_(n_items, D.+1) :=
  let dists := clamped_args self I Ks in
  let dists := map_mx fneg (map_mx arcosh dists) in
  let dists := reshape_BN dists in
  let loss : 'cV[fval]_B :=
    \col_b fneg (fsub (dists b ord0)
                      (flog (fadd (sum_dim1 (map_mx fexp dists) b ord0)
                                  (Fin (1 / 1000000))))) in
  (loss, table self).

End Lorentz.

(** ** Projection to the Poincare ball *)

(** [table[:, 1:] / (table[:, :1] + 1)] *)
Definition lorentz_to_poincare B D (table : 'M[fval]_(B, D.+1)) :
  'M[fval]_(B, D) :=
  let num := col' ord0 table in
  let den := map_mx (fun e => fadd e (Fin 1)) (col ord0 table) in
  \matrix_(i, j) fdiv (num i j) (den i ord0).

(** The visualisation collaborator's call, as a command on the model: it
    returns the projected table and the model it leaves behind. *)
Definition lorentz_to_poincare_call n_items D (self : Lorentz n_items D) :
  'M[fval]_(n_items, D) * Lorentz n_items D :=
  (lorentz_to_poincare (table self), self).

(** ** The random graph and the training pairs *)

(** [np.arange(a, b)] *)
Definition arange (a b : nat) : seq nat := iota a (b - a).

(** [insert(q, d)]: every document node is connected to the first one or two
    question nodes of a random permutation.  The random draws are arguments:
    [permutation i s] is the outcome of [np.random.permutation(s)] and
    [randint i] the outcome of [np.random.randint(1, 3)] in the iteration of
    document [i]. *)
Definition insert (q d : nat)
    (permutation : nat -> seq nat -> seq nat) (randint : nat -> nat) :
  seq (nat * nat) :=
  let q_nodes := arange 0 q in
  let d_nodes := arange q (q + d) in
  foldl (fun pairs i =>
           foldl (fun pairs j => rcons pairs (j, i)) pairs
                 (take (randint i) (permutation i q_nodes)))
        [::] d_nodes.

(** What the two generators promise about the draws: a permutation of the
    argument, and an integer of the half-open interval [1, 3). *)
Definition random_draws
    (permutation : nat -> seq nat -> seq nat) (randint : nat -> nat) : Prop :=
  (forall i s, perm_eq (permutation i s) s)
  /\ (forall i, (1 <= randint i < 3)%N).

(** Lines 206-213 of the script: the loop over the shuffled documents [temp]
    that extends the candidate list [temp_Ks] of the question [x] with
    documents not connected to it, and breaks at three entries. *)
Fixpoint candidates_loop (pairs : seq (nat * nat)) (x : nat)
    (temp temp_Ks : seq nat) : seq nat :=
  match temp with
  | [::] => temp_Ks
  | c :: temp' =>
      let temp_Ks :=
        if ((x, c) \notin pairs) && (c != x) then rcons temp_Ks c
        else temp_Ks in
      if size temp_Ks == 3%N then temp_Ks
      else candidates_loop pairs x temp' temp_Ks
  end.

(** Lines 199-214 of the script: the anchors [I] and the candidate lists
    [Ks], one entry per pair [(x, y)]; [permutation (x, y) s] is the outcome
    of [np.random.permutation(s)] in the iteration of that pair. *)
Definition training_pairs (num_q num_d : nat) (pairs : seq (nat * nat))
    (permutation : nat * nat -> seq nat -> seq nat) :
  seq nat * seq (seq nat) :=
  let arange_d := arange num_q (num_q + num_d) in
  foldl (fun IKs xy =>
           let temp_Ks := [:: xy.2] in
           let temp := permutation xy arange_d in
           (rcons IKs.1 xy.1,
            rcons IKs.2 (candidates_loop pairs xy.1 temp temp_Ks)))
        ([::], [::]) pairs.

(** ** The specification's formulas *)

(** Modelled from the spec: the inverse hyperboloid reconstruction of the
    round-trip property (section 8), [x_0 = (1 + |y|^2) / (1 - |y|^2)] and
    [x_{1:} = 2 y / (1 - |y|^2)].  The repository has no such function. *)
Definition poincare_to_lorentz B D (y : 'M[fval]_(B, D)) : 'M[fval]_(B, D.+1) :=
  let n2 : 'cV[fval]_B :=
    \col_i \big[fadd/Fin 0]_(j < D) fmul (y i j) (y i j) in
  \matrix_(i, j)
    match unlift ord0 j with
    | None => fdiv (fadd (Fin 1) (n2 i ord0)) (fsub (Fin 1) (n2 i ord0))
    | Some j' => fdiv (fmul (Fin 2) (y i j')) (fsub (Fin 1) (n2 i ord0))
    end.

Section SpecFormulas.

Variables n_items D : nat.

(** Section 4.3, step 2: the Minkowski metric signature matrix, the identity
    except for entry (0, 0), which is -1. *)
Definition minkowski_signature : 'M[fval]_(D.+1, D.+1) :=
  \matrix_(i, j)
    if i == j then (if i == ord0 then Fin (- 1) else Fin 1) else Fin 0.

(** Section 4.3, steps 2 and 3: normalise the gradient by its overall norm,
    multiply by the signature matrix, project at [p]. *)
Definition spec_tangent_update B (p g : 'M[fval]_(B, D.+1)) :
  'M[fval]_(B, D.+1) :=
  let h : 'M[fval]_(B, D.+1) :=
    matmul (\matrix_(i, j) fdiv (g i j) (norm_all g)) minkowski_signature in
  \matrix_(i, j)
    fsub (h i j)
         (fmul (fdiv (lorentz_scalar_product p h i ord0)
                     (lorentz_scalar_product p p i ord0))
               (p i j)).

(** Section 4.2: the hyperbolic distance between the points of two
    entities, the argument of [arcosh] clamped below at 1. *)
Definition spec_dist (self : Lorentz n_items D) (a c : 'I_n_items) : fval :=
  let s :=
    fneg (lorentz_scalar_product (row a (table self)) (row c (table self))
            ord0 ord0) in
  arcosh (if fltb s (Fin 1) then Fin 1 else s).

(** Section 4.2: [loss_b = -( -dist_{b,0} - log(sum_k exp(-dist_{b,k}) + eps) )]
    with [eps = 1e-6]. *)
Definition spec_loss B N (self : Lorentz n_items D)
    (I : 'cV['I_n_items]_B) (Ks : 'M['I_n_items]_(B, N.+1)) : 'cV[fval]_B :=
  \col_b
    fneg (fsub (fneg (spec_dist self (I b ord0) (Ks b ord0)))
               (flog (fadd (\big[fadd/Fin 0]_(k < N.+1)
                              fexp (fneg (spec_dist self (I b ord0) (Ks b k))))
                           (Fin (1 / 1000000))))).

End SpecFormulas.

(** ** Concrete inputs *)

(** The one-row tensor [[a, b]] (ambient dimension 2). *)
Definition mx12 (a b : fval) : 'M[fval]_(1, 2) :=
  \matrix_(i, j) if j == ord0 then a else b.

(** The one-row tensor [[a, b, c]] (ambient dimension 3). *)
Definition mx13 (a b c : fval) : 'M[fval]_(1, 3) :=
  \matrix_(i, j)
    if j == ord0 then a else if j == lift ord0 ord0 then b else c.

(** The two-row tensor [[a, b], [c, d]]. *)
Definition mx22 (a b c d : fval) : 'M[fval]_(2, 2) :=
  \matrix_(i, j)
    if i == ord0 then (if j == ord0 then a else b)
    else (if j == ord0 then c else d).

(** ** Real-valued readings of finite rows *)

(** The value of a finite entry. *)
Definition fin_val (x : fval) : R := if x is Fin r then r else 0.

(** The exact value of [exp(-d)] for a distance [d], 0 for an infinite
    one. *)
Definition exp_neg (x : fval) : R := if x is Fin r then exp (- r) else 0.

(** The Lorentzian product of two real vectors. *)
Definition lorentzR D (X Y : 'I_D.+1 -> R) : R :=
  \big[Rplus/0]_(j < D) (X (lift ord0 j) * Y (lift ord0 j)) - X ord0 * Y ord0.

(** Addition of real numbers is a commutative monoid: sums of reals can be
    reindexed. *)
HB.instance Definition _ :=
  Monoid.isComLaw.Build R 0 Rplus
    (fun a b c => esym (Rplus_assoc a b c)) Rplus_comm Rplus_0_l.

(** * Properties *)

(** ** Algebra of tensor entries *)

Lemma fmax_val : fmax = 340282346638528859811704183484516925440.
Proof. by rewrite /fmax; lra. Qed.

Lemma overflow_Fin (r : R) : - fmax <= r <= fmax -> overflow r = Fin r.
Proof.
move=> [H1 H2]; rewrite /overflow.
case: (Rlt_dec _ _) => [H|H] /=; first by lra.
by case: (Rlt_dec _ _) => [H'|H'] //=; lra.
Qed.

(** A finite result has not overflowed: it is the exact value. *)
Lemma overflow_finite (r : R) :
  isfinite (overflow r) -> overflow r = Fin r /\ - fmax <= r <= fmax.
Proof.
rewrite /overflow; case: (Rlt_dec _ _) => [H|H] //=.
by case: (Rlt_dec _ _) => [H'|H'] //= _; split=> //; lra.
Qed.

Lemma overflow_gt (r : R) : fmax < r -> overflow r = PInf.
Proof. by move=> H; rewrite /overflow; case: (Rlt_dec _ _). Qed.

Lemma overflow_nonneg (r : R) :
  0 <= r -> overflow r = if Rlt_dec fmax r then PInf else Fin r.
Proof.
move=> Hr; rewrite /overflow; case: (Rlt_dec _ _) => [H|H] //=.
by case: (Rlt_dec _ _) => [H'|H'] //=; move: fmax_val; lra.
Qed.

Lemma overflow_0 : overflow 0 = Fin 0.
Proof. by apply: overflow_Fin; rewrite fmax_val; lra. Qed.

Lemma faddC : commutative fadd.
Proof. by case=> [a|||] [b|||] //=; rewrite Rplus_comm. Qed.

Lemma fmulC : commutative fmul.
Proof. by case=> [a|||] [b|||] //=; rewrite Rmult_comm. Qed.

Lemma RltbP (a b : R) : reflect (a < b) (Rltb a b).
Proof. by rewrite /Rltb; case: Rlt_dec => H; constructor. Qed.

Lemma Rltb_irrefl (a : R) : Rltb a a = false.
Proof. by apply/RltbP; lra. Qed.

Lemma fadd_Fin (a b : R) :
  - fmax <= a + b <= fmax -> fadd (Fin a) (Fin b) = Fin (a + b).
Proof. exact: overflow_Fin. Qed.

Lemma fsub_Fin (a b : R) :
  - fmax <= a - b <= fmax -> fsub (Fin a) (Fin b) = Fin (a - b).
Proof. exact: overflow_Fin. Qed.

Lemma fmul_Fin (a b : R) :
  - fmax <= a * b <= fmax -> fmul (Fin a) (Fin b) = Fin (a * b).
Proof. exact: overflow_Fin. Qed.

Lemma fdiv_Fin (a b : R) :
  b <> 0 -> - fmax <= a / b <= fmax -> fdiv (Fin a) (Fin b) = Fin (a / b).
Proof.
move=> Hb H /=; case: (Req_dec_T b 0) => [E|E] //=.
exact: overflow_Fin.
Qed.

Lemma fsqrt_Fin (a : R) : 0 <= a -> fsqrt (Fin a) = Fin (sqrt a).
Proof. by move=> Ha /=; case: (Rlt_dec _ _) => // H; lra. Qed.

Lemma flog_Fin (a : R) : 0 < a -> flog (Fin a) = Fin (ln a).
Proof.
move=> Ha /=; case: (Rlt_dec _ _) => [H|_] /=; first by lra.
by case: (Req_dec_T _ _) => // H; lra.
Qed.

Lemma fcosh_Fin (a : R) :
  cosh a <= fmax -> fcosh (Fin a) = Fin (cosh a).
Proof.
move=> H; apply: overflow_Fin; split=> //.
by rewrite /cosh; have := exp_pos a; have := exp_pos (- a);
   move: fmax_val; lra.
Qed.

Lemma fsinh_Fin (a : R) :
  - fmax <= sinh a <= fmax -> fsinh (Fin a) = Fin (sinh a).
Proof. exact: overflow_Fin. Qed.

Lemma isfinite_val (x : fval) : isfinite x -> x = Fin (fin_val x).
Proof. by case: x. Qed.

Lemma fadd_finite (x y : fval) :
  isfinite (fadd x y) -> isfinite x /\ isfinite y.
Proof. by case: x; case: y. Qed.

Lemma fneg_finite (x : fval) : isfinite (fneg x) -> isfinite x.
Proof. by case: x. Qed.

Lemma fsub_finite (x y : fval) :
  isfinite (fsub x y) -> isfinite x /\ isfinite y.
Proof. by case: x; case: y. Qed.

Lemma fmul_finite (x y : fval) :
  isfinite (fmul x y) -> isfinite x /\ isfinite y.
Proof.
case: x => [a|||]; case: y => [b|||] //=; by case: (Rsign _).
Qed.

Lemma fmul_self_finite (x : fval) : isfinite (fmul x x) -> isfinite x.
Proof. by case: x. Qed.

Lemma fsqrt_finite (x : fval) : isfinite (fsqrt x) -> isfinite x.
Proof. by case: x. Qed.

Lemma fsqrt_not_NInf (x : fval) : fsqrt x <> NInf.
Proof. by case: x => [a|||] //=; case: (Rlt_dec _ _). Qed.

(** A finite sum, difference or product is the exact one. *)

Lemma fadd_exact (x y : fval) :
  isfinite (fadd x y) ->
  fadd x y = Fin (fin_val x + fin_val y)
  /\ - fmax <= fin_val x + fin_val y <= fmax.
Proof. by case: x => [a|||]; case: y => [b|||] //=; apply: overflow_finite. Qed.

Lemma fsub_exact (x y : fval) :
  isfinite (fsub x y) ->
  fsub x y = Fin (fin_val x - fin_val y)
  /\ - fmax <= fin_val x - fin_val y <= fmax.
Proof. by case: x => [a|||]; case: y => [b|||] //=; apply: overflow_finite. Qed.

Lemma fmul_exact (x y : fval) :
  isfinite (fmul x y) ->
  fmul x y = Fin (fin_val x * fin_val y)
  /\ - fmax <= fin_val x * fin_val y <= fmax.
Proof.
case: x => [a|||]; case: y => [b|||] //=; try by case: (Rsign _).
exact: overflow_finite.
Qed.

Lemma fsqrt_exact (x : fval) :
  isfinite (fsqrt x) ->
  fsqrt x = Fin (sqrt (fin_val x)) /\ 0 <= fin_val x.
Proof.
case: x => [a|||] //=; case: (Rlt_dec _ _) => [H|H] //= _.
by split=> //; lra.
Qed.

(** A product with a zero factor is zero or NaN, a sum of two results of
    operations adds exactly when it is finite. *)

Lemma fadd_0_r (x : fval) :
  (if x is Fin r then - fmax <= r <= fmax else True) -> fadd x (Fin 0) = x.
Proof.
by case: x => [a|||] //= H; rewrite Rplus_0_r overflow_Fin.
Qed.

Lemma overflow_range (r : R) :
  if overflow r is Fin s then - fmax <= s <= fmax else True.
Proof.
rewrite /overflow; case: (Rlt_dec _ _) => [H|H] //=.
by case: (Rlt_dec _ _) => [H'|H'] //=; lra.
Qed.

Lemma fmul_range (x y : fval) :
  if fmul x y is Fin s then - fmax <= s <= fmax else True.
Proof.
case: x => [a|||]; case: y => [b|||] //=; try by case: (Rsign _).
exact: overflow_range.
Qed.

Lemma fadd_fmul_0 (x y : fval) : fadd (fmul x y) (Fin 0) = fmul x y.
Proof. exact/fadd_0_r/fmul_range. Qed.

Lemma fadd_NaN_r (x : fval) : fadd x NaN = NaN.
Proof. by case: x. Qed.

Lemma fmul_NaN_r (x : fval) : fmul x NaN = NaN.
Proof. by case: x. Qed.

Lemma fdiv_NaN_r (x : fval) : fdiv x NaN = NaN.
Proof. by case: x. Qed.

Lemma Rsign_0 : Rsign 0 = Eq.
Proof.
rewrite /Rsign; case: (Rlt_dec 0 0) => [H|H] /=; first by lra.
by case: (Rlt_dec 0 0) => [H'|H'] /=; first by lra.
Qed.

Lemma fdiv_0_0 : fdiv (Fin 0) (Fin 0) = NaN.
Proof.
by rewrite /fdiv; case: (Req_dec_T 0 0) => [E|E] //=; rewrite Rsign_0.
Qed.

(** ** Sums *)

(** A sum is finite only if all its terms are. *)
Lemma sum_finite (n : nat) (F : 'I_n -> fval) :
  isfinite (\big[fadd/Fin 0]_(j < n) F j) -> forall j, isfinite (F j).
Proof.
elim: n F => [|n IH] F; first by move=> _ [].
rewrite big_ord_recl => /fadd_finite [H0 Hrest] j.
case: (unliftP ord0 j) => [k ->|->] //.
exact: (IH (fun k => F (lift ord0 k))).
Qed.

(** A finite sum is the exact sum of the values of its terms. *)
Lemma sum_exact (n : nat) (F : 'I_n -> fval) :
  isfinite (\big[fadd/Fin 0]_(j < n) F j) ->
  \big[fadd/Fin 0]_(j < n) F j = Fin (\big[Rplus/0]_(j < n) fin_val (F j)).
Proof.
elim: n F => [|n IH] F; first by rewrite !big_ord0.
rewrite !big_ord_recl => H; have [-> _] := fadd_exact H.
have [_ Hrest] := fadd_finite H.
by rewrite (IH (fun k => F (lift ord0 k)) Hrest).
Qed.

(** A sum with a NaN term is NaN. *)
Lemma sum_NaN (n : nat) (F : 'I_n -> fval) (k : 'I_n) :
  F k = NaN -> \big[fadd/Fin 0]_(j < n) F j = NaN.
Proof.
elim: n F k => [|n IH] F k; first by case: k.
rewrite big_ord_recl; case: (unliftP ord0 k) => [k' ->|->] H.
  by rewrite (IH (fun j => F (lift ord0 j)) k' H) fadd_NaN_r.
by rewrite H.
Qed.

Lemma sumR_ge0 (n : nat) (f : 'I_n -> R) :
  (forall j, 0 <= f j) -> 0 <= \big[Rplus/0]_(j < n) f j.
Proof.
by move=> H; elim/big_ind: _ => [|u w Hu Hw|j _]; [lra | lra | apply: H].
Qed.

(** Every term of a sum of non-negative numbers is below the sum. *)
Lemma sumR_ge_term (n : nat) (f : 'I_n -> R) (k : 'I_n) :
  (forall j, 0 <= f j) -> f k <= \big[Rplus/0]_(j < n) f j.
Proof.
elim: n f k => [|n IH] f k Hf; first by case: k.
rewrite big_ord_recl.
have Hrest : 0 <= \big[Rplus/0]_(j < n) f (lift ord0 j).
  by apply: sumR_ge0 => j; apply: Hf.
case: (unliftP ord0 k) => [k' ->|->]; last by lra.
have := IH (fun j => f (lift ord0 j)) k' (fun j => Hf (lift ord0 j)).
by have := Hf ord0; lra.
Qed.

(** Adding non-negative values, overflowed or not, gives the overflow of
    the exact sum. *)
Lemma fadd_overflow (a b : R) :
  0 <= a -> 0 <= b -> fadd (overflow a) (overflow b) = overflow (a + b).
Proof.
move=> Ha Hb; have Hab : 0 <= a + b by lra.
rewrite (overflow_nonneg Ha) (overflow_nonneg Hb) (overflow_nonneg Hab).
case: (Rlt_dec fmax a) => [H1|H1]; case: (Rlt_dec fmax b) => [H2|H2] /=;
  try (by case: (Rlt_dec _ _) => [H3|H3] //; lra).
exact: overflow_nonneg.
Qed.

Lemma sum_overflow (n : nat) (f : 'I_n -> R) :
  (forall j, 0 <= f j) ->
  \big[fadd/Fin 0]_(j < n) overflow (f j) =
  overflow (\big[Rplus/0]_(j < n) f j).
Proof.
elim: n f => [|n IH] f Hf; first by rewrite !big_ord0 overflow_0.
rewrite !big_ord_recl (IH (fun j => f (lift ord0 j))).
  by move=> j; apply: Hf.
by rewrite fadd_overflow //; apply: sumR_ge0 => j; apply: Hf.
Qed.

(** Non-negative terms whose exact sum does not exceed [fmax] add up
    exactly. *)
Lemma sum_Fin (n : nat) (f : 'I_n -> R) :
  (forall j, 0 <= f j) -> \big[Rplus/0]_(j < n) f j <= fmax ->
  \big[fadd/Fin 0]_(j < n) Fin (f j) = Fin (\big[Rplus/0]_(j < n) f j).
Proof.
move=> Hf Hle.
have H0 := sumR_ge0 Hf.
rewrite -(@overflow_Fin (\big[Rplus/0]_(j < n) f j)).
  by move: fmax_val; lra.
rewrite -sum_overflow //; apply: eq_bigr => j _.
rewrite overflow_Fin //; have := sumR_ge_term j Hf.
by move: fmax_val (Hf j); lra.
Qed.

(** The squares of finite values add up to the overflow of the exact sum. *)
Lemma sum_sq_overflow (n : nat) (F : 'I_n -> fval) :
  (forall j, isfinite (F j)) ->
  \big[fadd/Fin 0]_(j < n) fmul (F j) (F j) =
  overflow (\big[Rplus/0]_(j < n) (fin_val (F j) * fin_val (F j))).
Proof.
move=> HF; rewrite -sum_overflow; first by move=> j; nra.
by apply: eq_bigr => j _; rewrite {1 2}(isfinite_val (HF j)).
Qed.

Lemma sumR_const0 (n : nat) (f : 'I_n -> R) :
  (forall j, f j = 0) -> \big[Rplus/0]_(j < n) f j = 0.
Proof. by move=> H; elim/big_rec: _ => // j x _ ->; rewrite H Rplus_0_l. Qed.

Lemma sumR_scale (n : nat) (f : 'I_n -> R) (c : R) :
  c <> 0 ->
  \big[Rplus/0]_(j < n) (f j / c * (f j / c)) =
  (\big[Rplus/0]_(j < n) (f j * f j)) / (c * c).
Proof.
move=> Hc; elim/big_rec2: _ => [|j x y _ ->]; first by field.
by field.
Qed.

Lemma sumR_sqr_ge0 (n : nat) (f : 'I_n -> R) :
  0 <= \big[Rplus/0]_(k < n) (f k * f k).
Proof. by elim/big_ind: _ => [|u w Hu Hw|k _]; [lra | lra | nra]. Qed.

Lemma ln_nonneg (y : R) : 1 <= y -> 0 <= ln y.
Proof.
case=> [Hlt|<-]; last by rewrite ln_1; lra.
by have := ln_increasing 1 y; rewrite ln_1; lra.
Qed.

(** ** Exactness of finite results *)

Lemma fadd_range (x y : fval) :
  if fadd x y is Fin s then - fmax <= s <= fmax else True.
Proof. by case: x => [a|||]; case: y => [b|||] //=; apply: overflow_range. Qed.

Lemma fadd_fadd_0 (x y : fval) : fadd (fadd x y) (Fin 0) = fadd x y.
Proof. exact/fadd_0_r/fadd_range. Qed.

Lemma fin_val_fmul (x y : fval) :
  isfinite (fmul x y) -> fin_val (fmul x y) = fin_val x * fin_val y.
Proof. by move/fmul_exact => [-> _]. Qed.




(** ** The geometry primitives *)

Section GeometryFacts.

Variables B D : nat.
Implicit Types x y v : 'M[fval]_(B, D.+1).

Lemma lorentz_scalar_productE x y i :
  lorentz_scalar_product x y i ord0 =
  fsub (\big[fadd/Fin 0]_(j < D) fmul (x i (lift ord0 j)) (y i (lift ord0 j)))
       (fmul (x i ord0) (y i ord0)).
Proof.
rewrite /lorentz_scalar_product /sum_dim1 !mxE; congr (fsub _ _).
by apply: eq_bigr => j _; rewrite !mxE.
Qed.

(** A finite Lorentzian product has been computed without overflow: the
    two rows are finite and the product is the exact one. *)
Lemma lorentz_scalar_product_exact x y i :
  isfinite (lorentz_scalar_product x y i ord0) ->
  [/\ forall j, isfinite (x i j), forall j, isfinite (y i j)
    & lorentz_scalar_product x y i ord0 =
      Fin (lorentzR (fun j => fin_val (x i j)) (fun j => fin_val (y i j)))].
Proof.
rewrite lorentz_scalar_productE => H.
have [Hs H0] := fsub_finite H.
have Hk (k : 'I_D) :
    isfinite (fmul (x i (lift ord0 k)) (y i (lift ord0 k))).
  exact: (sum_finite Hs).
have Hxy j : isfinite (x i j) /\ isfinite (y i j).
  case: (unliftP ord0 j) => [k ->|->]; last exact: fmul_finite.
  exact: fmul_finite.
split=> [j|j|]; [by case: (Hxy j) | by case: (Hxy j) |].
have [-> _] := fsub_exact H.
rewrite (sum_exact Hs) (fin_val_fmul H0) /lorentzR /=; congr (Fin (_ - _)).
by apply: eq_bigr => k _; rewrite fin_val_fmul.
Qed.

(** A row with a finite self-product has finite entries only. *)
Lemma self_product_finite x i :
  isfinite (lorentz_scalar_product x x i ord0) -> forall j, isfinite (x i j).
Proof. by case/lorentz_scalar_product_exact. Qed.

(** Without overflow, the self-product of a finite row is the exact one. *)
Lemma self_product_Fin x i (X : 'I_D.+1 -> R) :
  (forall j, x i j = Fin (X j)) ->
  \big[Rplus/0]_(k < D) (X (lift ord0 k) * X (lift ord0 k)) <= fmax ->
  X ord0 * X ord0 <= fmax ->
  lorentz_scalar_product x x i ord0 = Fin (lorentzR X X).
Proof.
move=> Hx HS H0; rewrite lorentz_scalar_productE.
have HS0 := sumR_sqr_ge0 (fun k : 'I_D => X (lift ord0 k)).
have Hterm (k : 'I_D) :
    fmul (x i (lift ord0 k)) (x i (lift ord0 k)) =
    Fin (X (lift ord0 k) * X (lift ord0 k)).
  rewrite Hx fmul_Fin //.
  have := @sumR_ge_term _ (fun k : 'I_D => X (lift ord0 k) * X (lift ord0 k))
            k (fun j => Rle_0_sqr _).
  move: fmax_val (Rle_0_sqr (X (lift ord0 k))); rewrite /Rsqr /=.
  by move=> Hf Ht Hle; split; [lra | exact: Rle_trans Hle HS].
under eq_bigr => k _ do rewrite Hterm.
rewrite sum_Fin //; first by move=> k; apply: Rle_0_sqr.
rewrite Hx fmul_Fin.
  by move: fmax_val (Rle_0_sqr (X ord0)); rewrite /Rsqr; lra.
rewrite fsub_Fin //.
by move: fmax_val (Rle_0_sqr (X ord0)); rewrite /Rsqr; lra.
Qed.

(** The tangent norm of the zero displacement is zero. *)
Lemma tangent_norm_zero i :
  tangent_norm (const_mx (Fin 0) : 'M[fval]_(B, D.+1)) i ord0 = Fin 0.
Proof.
rewrite /tangent_norm mxE.
have H0 : \big[Rplus/0]_(k < D) (0 * 0) = 0.
  by rewrite sumR_const0 // => k; rewrite Rmult_0_l.
rewrite (@self_product_Fin _ _ (fun=> 0)).
- by move=> j; rewrite mxE.
- by rewrite H0 fmax_val; lra.
- by rewrite fmax_val; lra.
rewrite /lorentzR H0 /=; case: (Rlt_dec _ _) => [H|_] /=; first by lra.
by congr Fin; rewrite -[RHS]sqrt_0; congr sqrt; lra.
Qed.

Lemma exp_mapE x v i j :
  exp_map x v i j =
  if fltb (Fin 0) (tangent_norm v i ord0)
  then fadd (fmul (fcosh (tangent_norm v i ord0)) (x i j))
            (fmul (fsinh (tangent_norm v i ord0))
                  (fdiv (v i j) (tangent_norm v i ord0)))
  else x i j.
Proof. by rewrite /exp_map /where_ !mxE. Qed.

(** A displacement with negative self-product has no tangent norm: the
    square root yields NaN, which is not greater than 0. *)
Lemma tangent_norm_timelike v i (r : R) :
  lorentz_scalar_product v v i ord0 = Fin r -> r < 0 ->
  tangent_norm v i ord0 = NaN /\ fltb (Fin 0) (tangent_norm v i ord0) = false.
Proof.
move=> Hv Hr; rewrite /tangent_norm mxE Hv /=.
by case: (Rlt_dec _ _).
Qed.

End GeometryFacts.

(** C9.  The Lorentzian scalar product is symmetric, and on every batch row
    it is the sum of the products of the coordinates 1.. minus the product of
    the coordinates 0. *)
Theorem lorentz_scalar_product_symmetric B D (x y : 'M[fval]_(B, D.+1)) :
  lorentz_scalar_product x y = lorentz_scalar_product y x
  /\ forall i : 'I_B,
      lorentz_scalar_product x y i ord0 =
      fsub (\big[fadd/Fin 0]_(j < D)
              fmul (col' ord0 x i j) (col' ord0 y i j))
           (fmul (x i ord0) (y i ord0)).
Proof.
split=> [|i].
  apply/colP=> i; rewrite !lorentz_scalar_productE fmulC; congr (fsub _ _).
  by apply: eq_bigr => j _; rewrite fmulC.
rewrite lorentz_scalar_productE; congr (fsub _ _).
by apply: eq_bigr => j _; rewrite !mxE.
Qed.

(** C7.  The exponential map at the zero displacement returns the base point,
    whatever the base point is: the tangent norm is 0, the direction 0 / 0 is
    NaN, and the guard [tn > 0] selects [x] instead. *)
Theorem exp_map_zero B D (x : 'M[fval]_(B, D.+1)) :
  exp_map x (const_mx (Fin 0)) = x
  /\ (forall i,
        tangent_norm (const_mx (Fin 0) : 'M[fval]_(B, D.+1)) i ord0 = Fin 0)
  /\ fdiv (Fin 0) (Fin 0) = NaN.
Proof.
split; last split.
- by apply/matrixP=> i j; rewrite exp_mapE tangent_norm_zero /= Rltb_irrefl.
- exact: tangent_norm_zero.
- exact: fdiv_0_0.
Qed.

(** C10.  On every batch row whose tangent norm is not strictly positive
    (zero, or NaN as for a displacement of negative self-product), the
    exponential map returns the row of the base point. *)
Theorem exp_map_not_positive B D (x v : 'M[fval]_(B, D.+1)) (i : 'I_B) :
  fltb (Fin 0) (tangent_norm v i ord0) = false ->
  row i (exp_map x v) = row i x.
Proof. by move=> H; apply/rowP=> j; rewrite [LHS]mxE [RHS]mxE exp_mapE H. Qed.

(** ** Tensors with one row and two columns *)

Section OneRow.

Implicit Types a b c d : fval.

Lemma ord2_case (P : 'I_2 -> Prop) :
  P ord0 -> P (lift ord0 ord0) -> forall j, P j.
Proof.
move=> H0 H1 j; case: (unliftP ord0 j) => [k ->|->] //.
by rewrite [k]ord1.
Qed.

Lemma mx12_0 a b i : mx12 a b i ord0 = a.
Proof. by rewrite mxE. Qed.

Lemma mx12_1 a b i : mx12 a b i (lift ord0 ord0) = b.
Proof. by rewrite mxE. Qed.

Lemma mx12P a b (M : 'M[fval]_(1, 2)) :
  M ord0 ord0 = a -> M ord0 (lift ord0 ord0) = b -> M = mx12 a b.
Proof.
move=> Ha Hb; apply/matrixP=> i j; rewrite [i]ord1.
by elim/ord2_case: j; rewrite ?mx12_0 ?mx12_1.
Qed.

(** A sum of one, and of two, products. *)
Lemma sum_ord1 (F G : 'I_1 -> fval) :
  \big[fadd/Fin 0]_(j < 1) fmul (F j) (G j) = fmul (F ord0) (G ord0).
Proof. by rewrite big_ord_recl big_ord0 fadd_fmul_0. Qed.

Lemma sum_ord2 (F G : 'I_2 -> fval) :
  \big[fadd/Fin 0]_(j < 2) fmul (F j) (G j) =
  fadd (fmul (F ord0) (G ord0))
       (fmul (F (lift ord0 ord0)) (G (lift ord0 ord0))).
Proof. by rewrite big_ord_recl (sum_ord1 (fun j => F (lift ord0 j))). Qed.

Lemma lorentz_scalar_product_mx12 a b c d i :
  lorentz_scalar_product (mx12 a b) (mx12 c d) i ord0 =
  fsub (fmul b d) (fmul a c).
Proof.
rewrite lorentz_scalar_productE.
rewrite (sum_ord1 (fun j => mx12 a b i (lift ord0 j))).
by rewrite !mx12_0 !mx12_1.
Qed.

Lemma map_mx12 (f : fval -> fval) a b :
  map_mx f (mx12 a b) = mx12 (f a) (f b).
Proof. by apply: mx12P; rewrite mxE ?mx12_0 ?mx12_1. Qed.

End OneRow.

(** The range condition of an operation on concrete values. *)
Ltac in_range := rewrite fmax_val; lra.

(** C10 at a time-like displacement: the tangent norm of [[1, 0]] is NaN and
    the exponential map returns the base point. *)
Lemma exp_map_not_positive_witness :
  let x := mx12 (Fin 1) (Fin 0) in
  let v := mx12 (Fin 1) (Fin 0) in
  tangent_norm v ord0 ord0 = NaN /\ row ord0 (exp_map x v) = row ord0 x.
Proof.
have [Hnan Hlt] :
    tangent_norm (mx12 (Fin 1) (Fin 0)) ord0 ord0 = NaN
    /\ fltb (Fin 0) (tangent_norm (mx12 (Fin 1) (Fin 0)) ord0 ord0) = false.
  apply: (@tangent_norm_timelike _ _ _ _ (- 1)); last by lra.
  rewrite lorentz_scalar_product_mx12 !fmul_Fin; try in_range.
  by rewrite fsub_Fin; [in_range | congr Fin; lra].
by split=> //; apply: exp_map_not_positive.
Defined.

(** ** The optimizer: the tangent update *)

Section StepEntries.

Variables B D : nat.
Implicit Types p h g t update : 'M[fval]_(B, D.+1).

Lemma tangent_projE p h i j :
  tangent_proj p h i j =
  fsub (h i j)
       (fmul (fdiv (lorentz_scalar_product p h i ord0)
                   (lorentz_scalar_product p p i ord0))
             (p i j)).
Proof. by rewrite /tangent_proj 2!mxE. Qed.

Lemma nan_inf_fallbackE p update i j :
  nan_inf_fallback p update i j =
  if isnan (update i j) || isinf (update i j) then p i j else update i j.
Proof. by rewrite /nan_inf_fallback /where_ 2!mxE. Qed.

Lemma set_dim0E t i j :
  set_dim0 t i j =
  if j == ord0
  then fsqrt (fadd (Fin 1)
                (fsqrt (\big[fadd/Fin 0]_(k < D)
                          fmul (t i (lift ord0 k)) (t i (lift ord0 k)))))
  else t i j.
Proof.
rewrite /set_dim0 mxE; case: (j == ord0) => //.
rewrite /norm_dim1 3!mxE; congr (fsqrt (fadd _ (fsqrt _))).
by apply: eq_bigr => k _; rewrite mxE.
Qed.

(** The code's [gl] is the signature matrix of the specification. *)
Lemma gl_signature : gl D = minkowski_signature D.
Proof.
apply/matrixP=> i j; rewrite /gl /minkowski_signature !mxE.
case Hij: (i == j); first by rewrite -(eqP Hij) andbb.
case Hi: (i == ord0) => //=.
by rewrite -(eqP Hi) eq_sym Hij.
Qed.

End StepEntries.

(** C5.  The tangent update of [RSGD.step] is the one of section 4.3: the
    gradient divided by its whole-tensor norm, multiplied by the Minkowski
    signature matrix, and projected as [h - (<p,h> / <p,p>) p]; this is the
    displacement handed to the exponential map. *)
Theorem step_tangent_update B D (lr : fval) (p g : 'M[fval]_(B, D.+1)) :
  tangent_proj p (riemannian_grad g) = spec_tangent_update p g
  /\ step_update lr p g =
     set_dim0 (nan_inf_fallback p
                 (exp_map p (map_mx (fmul (fneg lr))
                               (spec_tangent_update p g)))).
Proof.
have Hspec : tangent_proj p (riemannian_grad g) = spec_tangent_update p g.
  rewrite /spec_tangent_update /riemannian_grad -gl_signature.
  have -> : (\matrix_(i, j) fdiv (g i j) (norm_all g)) =
            map_mx (fun e => fdiv e (norm_all g)) g.
    by apply/matrixP=> i j; rewrite !mxE.
  by apply/matrixP=> i j; rewrite tangent_projE mxE.
by split=> //; rewrite -Hspec.
Qed.

(** ** The optimizer: the hyperboloid constraint *)

Lemma sqrt_ge1 (a : R) : 0 <= a -> 1 <= sqrt (1 + a).
Proof. by move=> Ha; rewrite -{1}sqrt_1; apply: sqrt_le_1_alt; lra. Qed.

(** The square root of a number is below the mean of 1 and the number. *)
Lemma sqrt_le_succ (a : R) : 0 <= a -> sqrt a <= (a + 1) / 2.
Proof.
move=> Ha; have Hss := sqrt_sqrt a Ha.
by have := Rle_0_sqr (sqrt a - 1); rewrite /Rsqr; nra.
Qed.

(** What lines 70-71 and 88-89 store in coordinate 0 of a row whose
    coordinates 1.. are finite: with [S] the sum of their squares,
    [sqrt (1 + sqrt S)], and [+Inf] when [S] overflows. *)
Lemma set_dim0_time B D (t : 'M[fval]_(B, D.+1)) i :
  (forall k : 'I_D, isfinite (t i (lift ord0 k))) ->
  set_dim0 t i ord0 =
  let S := \big[Rplus/0]_(k < D)
             (fin_val (t i (lift ord0 k)) * fin_val (t i (lift ord0 k))) in
  if Rlt_dec fmax S then PInf else Fin (sqrt (1 + sqrt S)).
Proof.
move=> Hfin; cbv zeta; set S := \big[Rplus/0]_(k < D) _.
have HS : 0 <= S by apply: sumR_sqr_ge0.
have Hs := sqrt_pos S.
rewrite set_dim0E eqxx sum_sq_overflow // -/S overflow_nonneg //.
case: (Rlt_dec _ _) => [H|H] //.
rewrite fsqrt_Fin // fadd_Fin.
  by have := sqrt_le_succ HS; move: fmax_val; lra.
by rewrite fsqrt_Fin //; lra.
Qed.

(** Without overflow, the self-product of the stored row is
    [S - sqrt S - 1].  It is [-1] only when [S] is 0 or 1. *)
Lemma set_dim0_self_product B D (t : 'M[fval]_(B, D.+1)) i :
  (forall k, isfinite (t i (lift ord0 k))) ->
  \big[Rplus/0]_(k < D)
    (fin_val (t i (lift ord0 k)) * fin_val (t i (lift ord0 k))) <= fmax ->
  lorentz_scalar_product (set_dim0 t) (set_dim0 t) i ord0 =
  Fin (\big[Rplus/0]_(k < D)
          (fin_val (t i (lift ord0 k)) * fin_val (t i (lift ord0 k)))
       - sqrt (\big[Rplus/0]_(k < D)
                 (fin_val (t i (lift ord0 k)) * fin_val (t i (lift ord0 k))))
       - 1).
Proof.
move=> Hfin; set S := \big[Rplus/0]_(k < D) _ => Hle.
have HS : 0 <= S by apply: sumR_sqr_ge0.
have Hs := sqrt_pos S; have Hs2 := sqrt_le_succ HS.
pose X (j : 'I_D.+1) :=
  if unlift ord0 j is Some k then fin_val (t i (lift ord0 k))
  else sqrt (1 + sqrt S).
have HX0 : X ord0 = sqrt (1 + sqrt S) by rewrite /X unlift_none.
have HXk (k : 'I_D) : X (lift ord0 k) = fin_val (t i (lift ord0 k)).
  by rewrite /X liftK.
have Hsq : sqrt (1 + sqrt S) * sqrt (1 + sqrt S) = 1 + sqrt S.
  by rewrite sqrt_sqrt; lra.
have HSX : \big[Rplus/0]_(k < D) (X (lift ord0 k) * X (lift ord0 k)) = S.
  by apply: eq_bigr => k _; rewrite HXk.
rewrite (@self_product_Fin _ _ _ _ X).
- move=> j; case: (unliftP ord0 j) => [k ->|->].
    by rewrite set_dim0E /= HXk; apply: isfinite_val.
  rewrite set_dim0_time //; cbv zeta; rewrite -/S HX0.
  by case: (Rlt_dec fmax S) => [H|H] //; lra.
- by rewrite HSX.
- by rewrite HX0 Hsq; move: fmax_val; lra.
by rewrite /lorentzR HSX HX0 Hsq; congr Fin; lra.
Qed.

Lemma set_dim0_mx12 (a : fval) (b : R) :
  b * b <= fmax ->
  set_dim0 (mx12 a (Fin b)) = mx12 (Fin (sqrt (1 + Rabs b))) (Fin b).
Proof.
move=> Hle; have Hbb : sqrt (b * b) = Rabs b by rewrite -sqrt_Rsqr_abs.
have Hb := Rabs_pos b; have H0 : 0 <= b * b by nra.
have Hb2 : Rabs b <= (b * b + 1) / 2 by rewrite -Hbb; apply: sqrt_le_succ.
apply: mx12P; rewrite set_dim0E ?mx12_1 //.
rewrite eqxx (sum_ord1 (fun k => mx12 a (Fin b) ord0 (lift ord0 k))) mx12_1.
rewrite fmul_Fin; first by move: fmax_val; lra.
rewrite fsqrt_Fin // Hbb fadd_Fin; first by move: fmax_val; lra.
by rewrite fsqrt_Fin //; lra.
Qed.

(** C2.  The constructor at the draw [[0, 0.001]] (within the default
    [init_range]): the row it stores has self-product [-1.000999], which is
    [0.000999] away from [-1]. *)
Theorem Lorentz_init_off_hyperboloid :
  let w := mx12 (Fin 0) (Fin (1 / 1000)) in
  let self := Lorentz_init w in
  uniform_draw (1 / 1000) w
  /\ table self = mx12 (Fin (sqrt (1 + 1 / 1000))) (Fin (1 / 1000))
  /\ lorentz_scalar_product (table self) (table self) ord0 ord0 =
     Fin (- 1 - 999 / 1000000)
  /\ 1 / 100000 < Rabs ((- 1 - 999 / 1000000) + 1).
Proof.
have Hsq : sqrt (1 + 1 / 1000) * sqrt (1 + 1 / 1000) = 1 + 1 / 1000.
  by rewrite sqrt_sqrt; lra.
have Htab : set_dim0 (mx12 (Fin 0) (Fin (1 / 1000))) =
            mx12 (Fin (sqrt (1 + 1 / 1000))) (Fin (1 / 1000)).
  rewrite set_dim0_mx12; first by in_range.
  by rewrite Rabs_pos_eq //; lra.
cbv zeta; rewrite /Lorentz_init /= Htab; split; [|split=> //; split].
- move=> i j; elim/ord2_case: j; rewrite ?mx12_0 ?mx12_1.
    by exists 0; split=> //; lra.
  by exists (1 / 1000); split=> //; lra.
- rewrite lorentz_scalar_product_mx12 !fmul_Fin; try (rewrite ?Hsq; in_range).
  by rewrite fsub_Fin Hsq; [in_range | congr Fin; lra].
- by rewrite Rabs_left; lra.
Qed.

(** *** One step from the base point of the hyperboloid *)

Section OneRowStep.

Implicit Types a b c d : fval.

Lemma norm_all_mx12 a b :
  norm_all (mx12 a b) = fsqrt (fadd (fmul a a) (fmul b b)).
Proof.
rewrite /norm_all big_ord_recl big_ord0.
by rewrite (sum_ord2 (mx12 a b ord0)) fadd_fadd_0 !mx12_0 !mx12_1.
Qed.

Lemma matmul_gl_mx12 a b :
  matmul (mx12 a b) (gl 1) =
  mx12 (fadd (fmul a (Fin (- 1))) (fmul b (Fin 0)))
       (fadd (fmul a (Fin 0)) (fmul b (Fin 1))).
Proof.
apply: mx12P; rewrite /matmul mxE.
  by rewrite (sum_ord2 (mx12 a b ord0) (fun k => gl 1 k ord0))
             !mx12_0 !mx12_1 /gl !mxE.
by rewrite (sum_ord2 (mx12 a b ord0) (fun k => gl 1 k (lift ord0 ord0)))
           !mx12_0 !mx12_1 /gl !mxE.
Qed.

Lemma tangent_proj_mx12 a b c d :
  tangent_proj (mx12 a b) (mx12 c d) =
  let k := fdiv (fsub (fmul b d) (fmul a c)) (fsub (fmul b b) (fmul a a)) in
  mx12 (fsub c (fmul k a)) (fsub d (fmul k b)).
Proof.
by apply: mx12P;
   rewrite tangent_projE !lorentz_scalar_product_mx12 ?mx12_0 ?mx12_1.
Qed.

Lemma exp_map_mx12 a b c d :
  exp_map (mx12 a b) (mx12 c d) =
  let tn := fsqrt (fsub (fmul d d) (fmul c c)) in
  if fltb (Fin 0) tn
  then mx12 (fadd (fmul (fcosh tn) a) (fmul (fsinh tn) (fdiv c tn)))
            (fadd (fmul (fcosh tn) b) (fmul (fsinh tn) (fdiv d tn)))
  else mx12 a b.
Proof.
have Htn i : tangent_norm (mx12 c d) i ord0 =
             fsqrt (fsub (fmul d d) (fmul c c)).
  by rewrite /tangent_norm mxE lorentz_scalar_product_mx12.
cbv zeta; case Hlt: (fltb _ _).
  by apply: mx12P; rewrite exp_mapE Htn Hlt ?mx12_0 ?mx12_1.
by apply/matrixP=> i j; rewrite exp_mapE Htn Hlt.
Qed.

Lemma nan_inf_fallback_mx12 (a b c d : fval) :
  nan_inf_fallback (mx12 a b) (mx12 c d) =
  mx12 (if isnan c || isinf c then a else c)
       (if isnan d || isinf d then b else d).
Proof. by apply: mx12P; rewrite nan_inf_fallbackE ?mx12_0 ?mx12_1. Qed.

(** The gradient [[0, 1]] has norm 1; the signature matrix leaves it as it
    is. *)
Lemma base_riemannian_grad :
  riemannian_grad (mx12 (Fin 0) (Fin 1)) = mx12 (Fin 0) (Fin 1).
Proof.
rewrite /riemannian_grad norm_all_mx12 !fmul_Fin; try in_range.
rewrite fadd_Fin; first by in_range.
rewrite (_ : 0 * 0 + 1 * 1 = 1); first by lra.
rewrite fsqrt_Fin ?sqrt_1; first by lra.
rewrite map_mx12 !fdiv_Fin; try in_range; try lra.
rewrite matmul_gl_mx12 !fmul_Fin; try in_range.
by rewrite !fadd_Fin; try in_range; congr (mx12 (Fin _) (Fin _)); lra.
Qed.

(** It is already tangent at [[1, 0]]. *)
Lemma base_tangent_proj :
  tangent_proj (mx12 (Fin 1) (Fin 0)) (mx12 (Fin 0) (Fin 1)) =
  mx12 (Fin 0) (Fin 1).
Proof.
rewrite tangent_proj_mx12; cbv zeta.
rewrite !fmul_Fin; try in_range.
rewrite !fsub_Fin; try in_range.
rewrite fdiv_Fin; [by lra | by in_range |].
rewrite !fmul_Fin; try in_range.
by rewrite !fsub_Fin; try in_range; congr (mx12 (Fin _) (Fin _)); lra.
Qed.

Variable lr : R.
Hypothesis lr_pos : 0 < lr.
Hypothesis lr_le1 : lr <= 1.

Lemma sinh_pos : 0 < sinh lr.
Proof. by rewrite -sinh_0; apply: sinh_lt. Qed.

Lemma cosh_sinh_le3 : 1 <= cosh lr <= 3 /\ sinh lr <= 3.
Proof.
have He : exp lr <= 3.
  apply: Rle_trans exp_le_3; case: lr_le1 => [H|->]; last by lra.
  by apply: Rlt_le; apply: exp_increasing.
have Hm : exp (- lr) <= 1.
  by rewrite -exp_0; apply: Rlt_le; apply: exp_increasing; lra.
have Hp := exp_pos (- lr); have Hq := exp_pos lr.
have H1 : exp lr * exp (- lr) = 1.
  by rewrite -exp_plus (_ : _ + _ = 0) ?exp_0 //; lra.
by rewrite /cosh /sinh; nra.
Qed.

(** The retraction moves the point along the hyperbola. *)
Lemma base_exp_map :
  exp_map (mx12 (Fin 1) (Fin 0)) (mx12 (Fin 0) (Fin (- lr))) =
  mx12 (Fin (cosh lr)) (Fin (- sinh lr)).
Proof.
have [Hc Hs] := cosh_sinh_le3; have Hs0 := sinh_pos.
rewrite exp_map_mx12; cbv zeta.
have -> : fsqrt (fsub (fmul (Fin (- lr)) (Fin (- lr))) (fmul (Fin 0) (Fin 0)))
          = Fin lr.
  rewrite !fmul_Fin; try (move: fmax_val; nra).
  rewrite fsub_Fin; first by move: fmax_val; nra.
  rewrite (_ : _ - _ = lr * lr); first by lra.
  by rewrite fsqrt_Fin ?sqrt_square //; nra.
have -> : fltb (Fin 0) (Fin lr) = true by apply/RltbP.
rewrite fcosh_Fin; first by move: fmax_val; lra.
rewrite fsinh_Fin; first by move: fmax_val; lra.
have E1 : - lr / lr = - 1 by field; lra.
have E0 : 0 / lr = 0 by field; lra.
rewrite !fdiv_Fin ?E1 ?E0; try lra; try in_range.
rewrite !fmul_Fin; try (move: fmax_val; lra).
rewrite !fadd_Fin; try (move: fmax_val; lra).
by congr (mx12 (Fin _) (Fin _)); lra.
Qed.

(** Lines 70-71 then replace [cosh lr] by [sqrt (1 + sinh lr)]. *)
Lemma base_step_update :
  step_update (Fin lr) (mx12 (Fin 1) (Fin 0)) (mx12 (Fin 0) (Fin 1)) =
  mx12 (Fin (sqrt (1 + sinh lr))) (Fin (- sinh lr)).
Proof.
have [Hc Hs] := cosh_sinh_le3; have Hs0 := sinh_pos.
rewrite /step_update base_riemannian_grad base_tangent_proj.
rewrite map_mx12 (_ : mx12 (fmul _ _) _ = mx12 (Fin 0) (Fin (- lr))).
  rewrite [fneg _]/= !fmul_Fin; try (move: fmax_val; lra).
  by congr (mx12 (Fin _) (Fin _)); lra.
rewrite base_exp_map nan_inf_fallback_mx12 /= set_dim0_mx12.
  by move: fmax_val; nra.
by rewrite Rabs_Ropp Rabs_pos_eq //; lra.
Qed.

End OneRowStep.

Lemma sinh_tenth_bounds : 9 / 100 < sinh (1 / 10) < 11 / 100.
Proof.
have Hp := exp_ineq1_le (1 / 10).
have Hm := exp_ineq1_le (- (1 / 10)).
have Hpos := exp_pos (1 / 10).
have Hinv : exp (1 / 10) * exp (- (1 / 10)) = 1.
  by rewrite -exp_plus (_ : _ + _ = 0) ?exp_0 //; lra.
rewrite /sinh; split; nra.
Qed.

(** C1.  One step of the optimizer (learning rate 0.1) from the point
    [[1, 0]], which is on the hyperboloid, with the gradient [[0, 1]]: the
    stored row is [[sqrt (1 + sinh 0.1), - sinh 0.1]], whose self-product is
    more than 0.08 below [-1]. *)
Theorem step_leaves_hyperboloid :
  let p := mx12 (Fin 1) (Fin 0) in
  let g := mx12 (Fin 0) (Fin 1) in
  let p' := mx12 (Fin (sqrt (1 + sinh (1 / 10)))) (Fin (- sinh (1 / 10))) in
  lorentz_scalar_product p p ord0 ord0 = Fin (- 1)
  /\ step (RSGD_init [:: Param p (Some g)] (Some (Fin (1 / 10)))) =
     RSGD_init [:: Param p' (Some g)] (Some (Fin (1 / 10)))
  /\ exists r : R,
       lorentz_scalar_product p' p' ord0 ord0 = Fin r /\ r + 1 < - (8 / 100).
Proof.
have [Hlo Hhi] := sinh_tenth_bounds.
have Hsq : sqrt (1 + sinh (1 / 10)) * sqrt (1 + sinh (1 / 10)) =
           1 + sinh (1 / 10).
  by rewrite sqrt_sqrt; lra.
cbv zeta; split; last split.
- rewrite lorentz_scalar_product_mx12 !fmul_Fin; try in_range.
  by rewrite fsub_Fin; [in_range | congr Fin; lra].
- rewrite /step /RSGD_init /= /step_group /= /step_param /=.
  by rewrite base_step_update //; lra.
- exists (sinh (1 / 10) * sinh (1 / 10) - sinh (1 / 10) - 1); split; last by nra.
  rewrite lorentz_scalar_product_mx12 !fmul_Fin ?Hsq;
    try (move: fmax_val; nra).
  by rewrite fsub_Fin; [move: fmax_val; nra | congr Fin; lra].
Qed.

(** ** Bounds on the exponential *)

Lemma exp_pow (x : R) (n : nat) : exp (INR n * x) = exp x ^ n.
Proof.
elim: n => [|n IH]; first by rewrite /= Rmult_0_l exp_0.
by rewrite S_INR Rmult_plus_distr_r Rmult_1_l exp_plus IH /=; ring.
Qed.



(** [e^60] lies between [(3/2)^120] and [3^60]. *)
Lemma exp_60_bounds : (3 / 2) ^ 120 <= exp 60 <= 3 ^ 60.
Proof.
split.
  have -> : 60 = INR 120 * (1 / 2) by rewrite INR_IZR_INZ /=; lra.
  rewrite exp_pow; apply: pow_incr; split; first by lra.
  by have := exp_ineq1_le (1 / 2); lra.
have -> : 60 = INR 60 * 1 by rewrite INR_IZR_INZ /=; lra.
rewrite exp_pow; apply: pow_incr; split; last exact: exp_le_3.
exact/Rlt_le/exp_pos.
Qed.

Lemma cosh_sinh_60 :
  [/\ 10 ^ 20 <= cosh 60, cosh 60 <= 3 ^ 60, 10 ^ 20 <= sinh 60
    & sinh 60 <= 3 ^ 60].
Proof.
have [Hlo Hhi] := exp_60_bounds.
have Hm := exp_pos (Ropp 60).
have Hm1 : exp (Ropp 60) <= 1.
  by rewrite -exp_0; apply/Rlt_le/exp_increasing; lra.
by rewrite /cosh /sinh; split; lra.
Qed.

(** ** Tensors with one row and three columns *)

Section OneRowThree.

Implicit Types a b c : fval.

Lemma ord3_case (P : 'I_3 -> Prop) :
  P ord0 -> P (lift ord0 ord0) -> P (lift ord0 (lift ord0 ord0)) ->
  forall j, P j.
Proof.
move=> H0 H1 H2 j; case: (unliftP ord0 j) => [k ->|->] //.
by elim/ord2_case: k.
Qed.

Lemma mx13_0 a b c i : mx13 a b c i ord0 = a.
Proof. by rewrite mxE. Qed.

Lemma mx13_1 a b c i : mx13 a b c i (lift ord0 ord0) = b.
Proof. by rewrite mxE. Qed.

Lemma mx13_2 a b c i : mx13 a b c i (lift ord0 (lift ord0 ord0)) = c.
Proof. by rewrite mxE. Qed.

Lemma mx13P a b c (M : 'M[fval]_(1, 3)) :
  M ord0 ord0 = a -> M ord0 (lift ord0 ord0) = b ->
  M ord0 (lift ord0 (lift ord0 ord0)) = c -> M = mx13 a b c.
Proof.
move=> Ha Hb Hc; apply/matrixP=> i j; rewrite [i]ord1.
by elim/ord3_case: j; rewrite ?mx13_0 ?mx13_1 ?mx13_2.
Qed.

Lemma sum_ord3 (F G : 'I_3 -> fval) :
  \big[fadd/Fin 0]_(j < 3) fmul (F j) (G j) =
  fadd (fmul (F ord0) (G ord0))
       (fadd (fmul (F (lift ord0 ord0)) (G (lift ord0 ord0)))
             (fmul (F (lift ord0 (lift ord0 ord0)))
                   (G (lift ord0 (lift ord0 ord0))))).
Proof. by rewrite big_ord_recl (sum_ord2 (fun j => F (lift ord0 j))). Qed.

Lemma map_mx13 (f : fval -> fval) a b c :
  map_mx f (mx13 a b c) = mx13 (f a) (f b) (f c).
Proof. by apply: mx13P; rewrite mxE ?mx13_0 ?mx13_1 ?mx13_2. Qed.

Lemma lorentz_scalar_product_mx13 a b c a' b' c' i :
  lorentz_scalar_product (mx13 a b c) (mx13 a' b' c') i ord0 =
  fsub (fadd (fmul b b') (fmul c c')) (fmul a a').
Proof.
rewrite lorentz_scalar_productE.
rewrite (sum_ord2 (fun j => mx13 a b c i (lift ord0 j))).
by rewrite !mx13_0 !mx13_1 !mx13_2.
Qed.

Lemma norm_all_mx13 a b c :
  norm_all (mx13 a b c) =
  fsqrt (fadd (fmul a a) (fadd (fmul b b) (fmul c c))).
Proof.
rewrite /norm_all big_ord_recl big_ord0.
by rewrite (sum_ord3 (mx13 a b c ord0)) fadd_fadd_0 !mx13_0 !mx13_1 !mx13_2.
Qed.

Lemma matmul_gl_mx13 a b c :
  matmul (mx13 a b c) (gl 2) =
  mx13 (fadd (fmul a (Fin (- 1))) (fadd (fmul b (Fin 0)) (fmul c (Fin 0))))
       (fadd (fmul a (Fin 0)) (fadd (fmul b (Fin 1)) (fmul c (Fin 0))))
       (fadd (fmul a (Fin 0)) (fadd (fmul b (Fin 0)) (fmul c (Fin 1)))).
Proof.
apply: mx13P; rewrite /matmul mxE.
- by rewrite (sum_ord3 (mx13 a b c ord0) (fun k => gl 2 k ord0))
             !mx13_0 !mx13_1 !mx13_2 /gl !mxE.
- by rewrite (sum_ord3 (mx13 a b c ord0) (fun k => gl 2 k (lift ord0 ord0)))
             !mx13_0 !mx13_1 !mx13_2 /gl !mxE.
- by rewrite (sum_ord3 (mx13 a b c ord0)
                (fun k => gl 2 k (lift ord0 (lift ord0 ord0))))
             !mx13_0 !mx13_1 !mx13_2 /gl !mxE.
Qed.

Lemma tangent_proj_mx13 a b c a' b' c' :
  tangent_proj (mx13 a b c) (mx13 a' b' c') =
  let k := fdiv (fsub (fadd (fmul b b') (fmul c c')) (fmul a a'))
                (fsub (fadd (fmul b b) (fmul c c)) (fmul a a)) in
  mx13 (fsub a' (fmul k a)) (fsub b' (fmul k b)) (fsub c' (fmul k c)).
Proof.
by apply: mx13P;
   rewrite tangent_projE !lorentz_scalar_product_mx13 ?mx13_0 ?mx13_1 ?mx13_2.
Qed.

Lemma exp_map_mx13 a b c a' b' c' :
  exp_map (mx13 a b c) (mx13 a' b' c') =
  let tn := fsqrt (fsub (fadd (fmul b' b') (fmul c' c')) (fmul a' a')) in
  if fltb (Fin 0) tn
  then mx13 (fadd (fmul (fcosh tn) a) (fmul (fsinh tn) (fdiv a' tn)))
            (fadd (fmul (fcosh tn) b) (fmul (fsinh tn) (fdiv b' tn)))
            (fadd (fmul (fcosh tn) c) (fmul (fsinh tn) (fdiv c' tn)))
  else mx13 a b c.
Proof.
have Htn i : tangent_norm (mx13 a' b' c') i ord0 =
             fsqrt (fsub (fadd (fmul b' b') (fmul c' c')) (fmul a' a')).
  by rewrite /tangent_norm mxE lorentz_scalar_product_mx13.
cbv zeta; case Hlt: (fltb _ _).
  by apply: mx13P; rewrite exp_mapE Htn Hlt ?mx13_0 ?mx13_1 ?mx13_2.
by apply/matrixP=> i j; rewrite exp_mapE Htn Hlt.
Qed.

Lemma nan_inf_fallback_mx13 a b c a' b' c' :
  nan_inf_fallback (mx13 a b c) (mx13 a' b' c') =
  mx13 (if isnan a' || isinf a' then a else a')
       (if isnan b' || isinf b' then b else b')
       (if isnan c' || isinf c' then c else c').
Proof.
by apply: mx13P; rewrite nan_inf_fallbackE ?mx13_0 ?mx13_1 ?mx13_2.
Qed.

Lemma set_dim0_mx13 a b c :
  set_dim0 (mx13 a b c) =
  mx13 (fsqrt (fadd (Fin 1) (fsqrt (fadd (fmul b b) (fmul c c))))) b c.
Proof.
apply: mx13P; rewrite set_dim0E ?mx13_1 ?mx13_2 // eqxx.
rewrite (sum_ord2 (fun k => mx13 a b c ord0 (lift ord0 k))).
by rewrite !mx13_1 !mx13_2.
Qed.

End OneRowThree.

(** ** The optimizer: the NaN/Inf fallback *)

(** *** A step whose candidate row overflows in one coordinate *)

Section OverflowStep.

Local Abbreviation x0 := (sqrt (1 + 10 ^ 19)).

Lemma x0_bounds : 0 <= x0 <= 32 * 10 ^ 8 /\ x0 * x0 = 1 + 10 ^ 19.
Proof.
have H0 : 0 <= x0 by apply: sqrt_pos.
have Hsq : x0 * x0 = 1 + 10 ^ 19 by rewrite sqrt_sqrt; lra.
split=> //; split=> //; apply: Rnot_lt_le => H.
have : 32 * 10 ^ 8 * (32 * 10 ^ 8) < x0 * x0.
  by apply: Rmult_le_0_lt_compat => //; lra.
by lra.
Qed.

(** The table row [[sqrt (1 + 10^19), 10^19, 0]] is as lines 70-71 and the
    constructor store it. *)
Lemma overflow_step_stored :
  set_dim0 (mx13 (Fin x0) (Fin (10 ^ 19)) (Fin 0)) =
  mx13 (Fin x0) (Fin (10 ^ 19)) (Fin 0).
Proof.
rewrite set_dim0_mx13 !fmul_Fin; try in_range.
rewrite fadd_Fin; first by in_range.
rewrite (_ : _ + _ = 10 ^ 19 * 10 ^ 19); first by lra.
rewrite fsqrt_Fin; first by lra.
rewrite sqrt_square; first by lra.
rewrite fadd_Fin; first by in_range.
by rewrite fsqrt_Fin //; lra.
Qed.

Lemma overflow_step_grad :
  riemannian_grad (mx13 (Fin 0) (Fin 0) (Fin 1)) =
  mx13 (Fin 0) (Fin 0) (Fin 1).
Proof.
rewrite /riemannian_grad norm_all_mx13 !fmul_Fin; try in_range.
rewrite !fadd_Fin; try in_range.
rewrite (_ : 0 * 0 + (0 * 0 + 1 * 1) = 1); first by lra.
rewrite fsqrt_Fin ?sqrt_1; first by lra.
rewrite map_mx13 !fdiv_Fin; try in_range; try lra.
rewrite matmul_gl_mx13 !fmul_Fin; try in_range.
by rewrite !fadd_Fin; try in_range; congr (mx13 (Fin _) (Fin _) (Fin _)); lra.
Qed.

(** The gradient direction is tangent at the row: the projection leaves it
    as it is. *)
Lemma overflow_step_proj :
  tangent_proj (mx13 (Fin x0) (Fin (10 ^ 19)) (Fin 0))
               (mx13 (Fin 0) (Fin 0) (Fin 1)) =
  mx13 (Fin 0) (Fin 0) (Fin 1).
Proof.
have [[H0 Hle] Hsq] := x0_bounds.
rewrite tangent_proj_mx13; cbv zeta.
rewrite !fmul_Fin ?Hsq; try (move: fmax_val; lra).
rewrite !fadd_Fin; try in_range.
rewrite !fsub_Fin; try (move: fmax_val; lra).
rewrite fdiv_Fin; [by lra | by rewrite /Rdiv; in_range |].
rewrite !fmul_Fin; try (rewrite /Rdiv; move: fmax_val; lra).
rewrite !fsub_Fin; try (rewrite /Rdiv; move: fmax_val; lra).
by congr (mx13 (Fin _) (Fin _) (Fin _)); rewrite /Rdiv; lra.
Qed.

(** With the learning rate 60 the candidate is
    [[cosh 60 * x0, +Inf, - sinh 60]]: the product [cosh 60 * 10^19] lies
    beyond [fmax]. *)
Lemma overflow_step_exp_map :
  exp_map (mx13 (Fin x0) (Fin (10 ^ 19)) (Fin 0))
          (mx13 (Fin 0) (Fin 0) (Fin (- (60)))) =
  mx13 (Fin (cosh 60 * x0)) PInf (Fin (- sinh 60)).
Proof.
have [[H0 Hle] Hsq] := x0_bounds.
have [Hc1 Hc2 Hs1 Hs2] := cosh_sinh_60.
rewrite exp_map_mx13; cbv zeta.
have -> : fsqrt (fsub (fadd (fmul (Fin 0) (Fin 0))
                            (fmul (Fin (- (60))) (Fin (- (60)))))
                      (fmul (Fin 0) (Fin 0))) = Fin 60.
  rewrite !fmul_Fin; try in_range.
  rewrite fadd_Fin; first by in_range.
  rewrite fsub_Fin; first by in_range.
  rewrite (_ : _ - _ = 60 * 60); first by lra.
  by rewrite fsqrt_Fin ?sqrt_square //; lra.
have -> : fltb (Fin 0) (Fin 60) = true by apply/RltbP; lra.
rewrite fcosh_Fin; first by move: fmax_val; lra.
rewrite fsinh_Fin; first by move: fmax_val; lra.
rewrite !fdiv_Fin; try lra; try in_range.
have -> : fmul (Fin (cosh 60)) (Fin (10 ^ 19)) = PInf.
  by rewrite /= overflow_gt //; move: fmax_val; nra.
rewrite !fmul_Fin; try (move: fmax_val; nra).
rewrite [fadd PInf _]/= !fadd_Fin; try (move: fmax_val; nra).
by congr (mx13 (Fin _) _ (Fin _)); lra.
Qed.

Lemma overflow_step_candidate :
  exp_map (mx13 (Fin x0) (Fin (10 ^ 19)) (Fin 0))
    (map_mx (fmul (fneg (Fin 60)))
       (tangent_proj (mx13 (Fin x0) (Fin (10 ^ 19)) (Fin 0))
          (riemannian_grad (mx13 (Fin 0) (Fin 0) (Fin 1))))) =
  mx13 (Fin (cosh 60 * x0)) PInf (Fin (- sinh 60)).
Proof.
rewrite overflow_step_grad overflow_step_proj map_mx13.
rewrite (_ : mx13 (fmul _ _) _ _ = mx13 (Fin 0) (Fin 0) (Fin (- (60)))).
  rewrite [fneg _]/= !fmul_Fin; try in_range.
  by congr (mx13 (Fin _) (Fin _) (Fin _)); lra.
exact: overflow_step_exp_map.
Qed.

(** The infinite coordinate falls back to its pre-step value, the other
    two keep their candidate values, and the sum of squares read by line 70
    overflows. *)
Lemma overflow_step_update :
  step_update (Fin 60) (mx13 (Fin x0) (Fin (10 ^ 19)) (Fin 0))
              (mx13 (Fin 0) (Fin 0) (Fin 1)) =
  mx13 PInf (Fin (10 ^ 19)) (Fin (- sinh 60)).
Proof.
have [Hc1 Hc2 Hs1 Hs2] := cosh_sinh_60.
rewrite /step_update overflow_step_candidate nan_inf_fallback_mx13 /=.
rewrite set_dim0_mx13 fmul_Fin; first by in_range.
have -> : fmul (Fin (- sinh 60)) (Fin (- sinh 60)) = PInf.
  by rewrite /= overflow_gt //; move: fmax_val; nra.
by [].
Qed.

End OverflowStep.

(** C3, as stated, fails.  One step with the learning rate 60 from the table
    row [[sqrt (1 + 10^19), 10^19, 0]] (a row as line 70 stores it) with the
    gradient [[0, 0, 1]]: coordinate 1 of the candidate row overflows to
    [+Inf], and the row is not replaced by its pre-step value: only
    coordinate 1 is, coordinate 2 moves from 0 to [- sinh 60], and
    coordinate 0, recomputed by lines 70-71, becomes [+Inf]. *)
Lemma step_fallback_not_rowwise :
  let p := mx13 (Fin (sqrt (1 + 10 ^ 19))) (Fin (10 ^ 19)) (Fin 0) in
  let g := mx13 (Fin 0) (Fin 0) (Fin 1) in
  let lr := Fin 60 in
  let update :=
    exp_map p (map_mx (fmul (fneg lr)) (tangent_proj p (riemannian_grad g))) in
  let p' := mx13 PInf (Fin (10 ^ 19)) (Fin (- sinh 60)) in
  set_dim0 p = p
  /\ isinf (update ord0 (lift ord0 ord0))
  /\ step (RSGD_init [:: Param p (Some g)] (Some lr)) =
     RSGD_init [:: Param p' (Some g)] (Some lr)
  /\ row ord0 p' <> row ord0 p.
Proof.
cbv zeta; split; first exact: overflow_step_stored.
split; first by rewrite overflow_step_candidate mx13_1.
split.
  rewrite /step /RSGD_init /= /step_group /= /step_param /=.
  by rewrite overflow_step_update.
by move/rowP/(_ ord0); rewrite !mxE.
Qed.

Section Fallback.

Variables B D : nat.
Implicit Types p update : 'M[fval]_(B, D.+1).

Lemma isfinite_nan_inf (x : fval) : isnan x || isinf x = ~~ isfinite x.
Proof. by case: x. Qed.

Lemma nan_inf_fallback_finite p update i j :
  isfinite (p i j) -> isfinite (nan_inf_fallback p update i j).
Proof. by rewrite nan_inf_fallbackE; case: (update i j). Qed.

Lemma nan_inf_fallback_same p : nan_inf_fallback p p = p.
Proof. by apply/matrixP=> i j; rewrite nan_inf_fallbackE; case: ifP. Qed.

End Fallback.

(** C3 (amended).  The fallback of [RSGD.step] works entry by entry and is
    followed by lines 70-71.  In every row of the stored table, a coordinate
    [1..] is the candidate value when that is finite and the pre-step value
    otherwise, and coordinate 0 is recomputed from the stored coordinates
    [1..]; a row all of whose candidate coordinates [1..] are NaN or Inf is
    stored as the pre-step row with coordinate 0 recomputed.  The step is a
    total function of the table and the gradient: nothing is raised. *)
Theorem step_fallback_entrywise B D (lr : fval) (p g : 'M[fval]_(B, D.+1))
    (i : 'I_B) :
  let update :=
    exp_map p (map_mx (fmul (fneg lr)) (tangent_proj p (riemannian_grad g))) in
  let stored := step_update lr p g in
  (forall k : 'I_D,
      stored i (lift ord0 k) =
      if isfinite (update i (lift ord0 k)) then update i (lift ord0 k)
      else p i (lift ord0 k))
  /\ stored i ord0 =
     fsqrt (fadd (Fin 1)
              (fsqrt (\big[fadd/Fin 0]_(k < D)
                        fmul (stored i (lift ord0 k))
                             (stored i (lift ord0 k)))))
  /\ ((forall k : 'I_D, ~~ isfinite (update i (lift ord0 k))) ->
      row i stored = row i (set_dim0 p)).
Proof.
move=> update stored.
have Hk (k : 'I_D) :
    stored i (lift ord0 k) =
    if isfinite (update i (lift ord0 k)) then update i (lift ord0 k)
    else p i (lift ord0 k).
  rewrite /stored /step_update set_dim0E /= nan_inf_fallbackE -/update.
  by rewrite isfinite_nan_inf; case: (isfinite _).
have H0 : stored i ord0 =
          fsqrt (fadd (Fin 1)
                   (fsqrt (\big[fadd/Fin 0]_(k < D)
                             fmul (stored i (lift ord0 k))
                                  (stored i (lift ord0 k))))).
  rewrite {1}/stored /step_update set_dim0E eqxx.
  congr (fsqrt (fadd _ (fsqrt _))); apply: eq_bigr => k _.
  by rewrite /stored /step_update set_dim0E.
split=> //; split=> // Hall; apply/rowP=> j; rewrite [LHS]mxE [RHS]mxE.
have Hp (k : 'I_D) : stored i (lift ord0 k) = p i (lift ord0 k).
  by rewrite Hk (negbTE (Hall k)).
case: (unliftP ord0 j) => [k ->|->]; first by rewrite Hp set_dim0E.
rewrite H0 set_dim0E eqxx.
by congr (fsqrt (fadd _ (fsqrt _))); apply: eq_bigr => k _; rewrite Hp.
Qed.

(** ** The inverse hyperbolic cosine on its domain *)

(** An argument not below 1 has a non-negative inverse hyperbolic cosine;
    it is [+Inf] when the square of the argument overflows. *)
Lemma arcosh_ge1 (c : R) :
  1 <= c ->
  arcosh (Fin c) =
  if Rlt_dec fmax (c * c) then PInf else Fin (ln (c + sqrt (c * c - 1))).
Proof.
move=> Hc; have Hcc : 1 <= c * c by nra.
rewrite /arcosh [fmul _ _]/= overflow_nonneg; first by lra.
case: (Rlt_dec _ _) => [H|H] //.
have Hs := sqrt_pos (c * c - 1).
have Hss : sqrt (c * c - 1) * sqrt (c * c - 1) = c * c - 1.
  by rewrite sqrt_sqrt; lra.
have Hsc : sqrt (c * c - 1) <= c by nra.
rewrite fsub_Fin; first by move: fmax_val; lra.
rewrite fsqrt_Fin; first by lra.
have Hc2 : c + c <= fmax.
  have [H2|H2] := Rle_lt_dec c 2; first by move: fmax_val; lra.
  have Hx : c + c <= c * c by nra.
  by lra.
rewrite fadd_Fin; first by move: fmax_val; lra.
by rewrite flog_Fin //; lra.
Qed.

Lemma arcosh_Fin (c : R) :
  1 <= c ->
  (exists d : R, arcosh (Fin c) = Fin d /\ 0 <= d) \/ arcosh (Fin c) = PInf.
Proof.
move=> Hc; rewrite arcosh_ge1 //; case: (Rlt_dec _ _) => [H|H]; first by right.
left; eexists; split; first by [].
by apply: ln_nonneg; have := sqrt_pos (c * c - 1); lra.
Qed.

Lemma arcosh_1 : arcosh (Fin 1) = Fin 0.
Proof.
have Hf := fmax_val; rewrite arcosh_ge1; first by lra.
case: (Rlt_dec _ _) => [H|H]; first by lra.
rewrite (_ : 1 * 1 - 1 = 0); first by lra.
by rewrite sqrt_0 Rplus_0_r ln_1.
Qed.

(** ** The forward pass *)

Section ForwardFacts.

Variables n_items D B N : nat.
Variable self : Lorentz n_items D.
Variable I : 'cV['I_n_items]_B.
Variable Ks : 'M['I_n_items]_(B, N.+1).

Lemma flat_index_mxvec (b : 'I_B) (k : 'I_N.+1) :
  flat_index (mxvec_index b k) = (b, k).
Proof. by rewrite /flat_index /mxvec_index cast_ordK enum_rankK. Qed.

(** The scalar product that the reshaped batch computes for the pair
    (b, k) is the one of the anchor's row and the candidate's row. *)
Lemma pair_scalar_product (b : 'I_B) (k : 'I_N.+1) :
  lorentz_scalar_product
    (reshape_rows
       (fun b => \matrix_(k, j) lookup self I b j : 'M[fval]_(N.+1, D.+1)))
    (reshape_rows (fun b => \matrix_(k, j) table self (Ks b k) j))
    (mxvec_index b k) ord0 =
  lorentz_scalar_product (row (I b ord0) (table self))
                         (row (Ks b k) (table self)) ord0 ord0.
Proof.
rewrite !lorentz_scalar_productE /reshape_rows /lookup.
rewrite !mxE flat_index_mxvec /=; congr (fsub _ _).
by apply: eq_bigr => j _; rewrite !mxE flat_index_mxvec.
Qed.

Lemma clamped_argsE (b : 'I_B) (k : 'I_N.+1) :
  clamped_args self I Ks (mxvec_index b k) ord0 =
  let s :=
    fneg (lorentz_scalar_product (row (I b ord0) (table self))
                                 (row (Ks b k) (table self)) ord0 ord0) in
  if fltb s (Fin 1) then Fin 1 else s.
Proof.
rewrite /clamped_args /where_ mxE [const_mx _ _ _]mxE.
by rewrite [map_mx (fun d => fltb d _) _ _ _]mxE ![map_mx fneg _ _ _]mxE
           pair_scalar_product.
Qed.

Lemma forward_dist (b : 'I_B) (k : 'I_N.+1) :
  arcosh (clamped_args self I Ks (mxvec_index b k) ord0) =
  spec_dist self (I b ord0) (Ks b k).
Proof. by rewrite clamped_argsE. Qed.

Lemma forward_dists (b : 'I_B) (k : 'I_N.+1) :
  reshape_BN (map_mx fneg (map_mx arcosh (clamped_args self I Ks))) b k =
  fneg (spec_dist self (I b ord0) (Ks b k)).
Proof.
rewrite /reshape_BN mxE [map_mx fneg _ _ _]mxE [map_mx arcosh _ _ _]mxE.
by rewrite forward_dist.
Qed.

Lemma forward_lossE : (forward self I Ks).1 = spec_loss self I Ks.
Proof.
rewrite /forward /=; apply/colP=> b.
rewrite /spec_loss [LHS]mxE [RHS]mxE forward_dists.
congr (fneg (fsub _ (flog (fadd _ _)))).
rewrite /sum_dim1 mxE; apply: eq_bigr => k _.
by rewrite [map_mx fexp _ _ _]mxE forward_dists.
Qed.

(** The clamp of line 121 on a product that is not NaN: a finite value not
    below 1, or [+Inf]. *)
Lemma clamp_ge1 (s : fval) :
  ~~ isnan s ->
  (exists c : R,
      (if fltb (fneg s) (Fin 1) then Fin 1 else fneg s) = Fin c /\ 1 <= c)
  \/ (if fltb (fneg s) (Fin 1) then Fin 1 else fneg s) = PInf.
Proof.
case: s => [r|||] //= _; [|by left; exists 1; split=> //; lra|by right].
case: RltbP => H; left; first by exists 1; split=> //; lra.
by exists (- r); split=> //; lra.
Qed.

(** A NaN product passes the clamp and [arcosh]. *)
Lemma spec_dist_nan (a c : 'I_n_items) :
  lorentz_scalar_product (row a (table self)) (row c (table self)) ord0 ord0
  = NaN ->
  spec_dist self a c = NaN.
Proof. by rewrite /spec_dist => ->. Qed.

(** The distance of a pair whose product is not NaN: a finite non-negative
    number, or [+Inf]. *)
Lemma spec_dist_cases (a c : 'I_n_items) :
  ~~ isnan (lorentz_scalar_product (row a (table self)) (row c (table self))
              ord0 ord0) ->
  (exists d : R, spec_dist self a c = Fin d /\ 0 <= d)
  \/ spec_dist self a c = PInf.
Proof.
move=> /clamp_ge1; rewrite /spec_dist => -[[v [-> Hv]]|->]; last by right.
exact: arcosh_Fin.
Qed.

End ForwardFacts.

(** The sum of the exponentials of the negated distances of an anchor, and
    the logarithm of line 128, when no distance is NaN. *)
Section LogSumExp.

Variable n : nat.
Variable d : 'I_n -> fval.

Hypothesis dist_cases :
  forall k, (exists r : R, d k = Fin r /\ 0 <= r) \/ d k = PInf.

Lemma exp_neg_range (k : 'I_n) : 0 <= exp_neg (d k) <= 1.
Proof.
case: (dist_cases k) => [[r [-> Hr]]|->] /=; last by lra.
have := exp_pos (- r); split; first by lra.
rewrite -exp_0; case: Hr => [Hr|<-]; last by rewrite Ropp_0; lra.
by apply/Rlt_le/exp_increasing; lra.
Qed.

Lemma fexp_fneg_dist (k : 'I_n) :
  fexp (fneg (d k)) = overflow (exp_neg (d k)).
Proof.
have := exp_neg_range k; case: (dist_cases k) => [[r [-> Hr]]|->] //= _.
by rewrite overflow_0.
Qed.

Lemma sum_exp_dist :
  \big[fadd/Fin 0]_(k < n) fexp (fneg (d k)) =
  overflow (\big[Rplus/0]_(k < n) exp_neg (d k)).
Proof.
rewrite -sum_overflow; first by move=> k; case: (exp_neg_range k).
by apply: eq_bigr => k _; apply: fexp_fneg_dist.
Qed.

Lemma sumR_exp_ge0 : 0 <= \big[Rplus/0]_(k < n) exp_neg (d k).
Proof. by apply: sumR_ge0 => k; case: (exp_neg_range k). Qed.

(** The logarithm of line 128 is a finite number or [+Inf]. *)
Lemma log_sum_exp_cases :
  let S := \big[Rplus/0]_(k < n) exp_neg (d k) in
  flog (fadd (\big[fadd/Fin 0]_(k < n) fexp (fneg (d k)))
             (Fin (1 / 1000000))) =
  if Rlt_dec fmax (S + 1 / 1000000) then PInf
  else Fin (ln (S + 1 / 1000000)).
Proof.
move=> S; have HS : 0 <= S := sumR_exp_ge0.
rewrite sum_exp_dist -/S overflow_nonneg //.
case: (Rlt_dec fmax S) => [H|H].
  by rewrite /=; case: (Rlt_dec _ _) => [H'|H'] //; lra.
rewrite [fadd _ _]/= overflow_nonneg; first by lra.
case: (Rlt_dec _ _) => [H'|H'] //.
by rewrite flog_Fin //; lra.
Qed.

End LogSumExp.

(** C6.  The loss of [forward] for anchor [b] is
    [-( -dist_{b,0} - log(sum_k exp(-dist_{b,k}) + 1e-6) )], the distances
    being the clamped hyperbolic distances between the anchor and its
    candidates; the table is returned as it is. *)
Theorem forward_loss n_items D B N (self : Lorentz n_items D)
    (I : 'cV['I_n_items]_B) (Ks : 'M['I_n_items]_(B, N.+1)) :
  forward self I Ks = (spec_loss self I Ks, table self).
Proof.
by rewrite [LHS]surjective_pairing forward_lossE; congr (_, _).
Qed.

(** Rows of two coordinates. *)
Lemma lorentz_scalar_product_D1 B (x y : 'M[fval]_(B, 2)) i :
  lorentz_scalar_product x y i ord0 =
  fsub (fmul (x i (lift ord0 ord0)) (y i (lift ord0 ord0)))
       (fmul (x i ord0) (y i ord0)).
Proof.
rewrite lorentz_scalar_productE.
by rewrite (sum_ord1 (fun j => x i (lift ord0 j))).
Qed.

Lemma row_product_mx22 (a b c d : fval) (i k : 'I_2) :
  let T := mx22 a b c d in
  lorentz_scalar_product (row i T) (row k T) ord0 ord0 =
  fsub (fmul (T i (lift ord0 ord0)) (T k (lift ord0 ord0)))
       (fmul (T i ord0) (T k ord0)).
Proof. by rewrite /= lorentz_scalar_product_D1 !mxE. Qed.

(** C4, as stated, fails.  In the table [[1e30, 1e30], [1e30, 1e30]] all
    entries are finite, but both products of the Lorentzian scalar product
    of row 0 and row 1 overflow: it is [Inf - Inf = NaN].  NaN is not below
    1, so it passes the clamp, and the distance and the loss of [forward]
    are NaN. *)
Lemma forward_nan :
  let self :=
    MkLorentz (mx22 (Fin (10 ^ 30)) (Fin (10 ^ 30))
                    (Fin (10 ^ 30)) (Fin (10 ^ 30))) in
  let I : 'cV['I_2]_1 := const_mx ord0 in
  let Ks : 'M['I_2]_(1, 1) := const_mx (lift ord0 ord0) in
  (forall i j, isfinite (table self i j))
  /\ clamped_args self I Ks (mxvec_index ord0 ord0) ord0 = NaN
  /\ arcosh (clamped_args self I Ks (mxvec_index ord0 ord0) ord0) = NaN
  /\ (forward self I Ks).1 ord0 ord0 = NaN.
Proof.
cbv zeta.
set self := MkLorentz _; set I := const_mx _; set Ks := const_mx _.
have Hprod :
    lorentz_scalar_product (row (I ord0 ord0) (table self))
      (row (Ks ord0 ord0) (table self)) ord0 ord0 = NaN.
  rewrite /self [table _]/= row_product_mx22 !mxE /=.
  by rewrite overflow_gt //; rewrite fmax_val; lra.
have Hd := spec_dist_nan Hprod.
split; first by move=> i j; rewrite /= mxE; case: ifP; case: ifP.
split; first by rewrite clamped_argsE Hprod.
split; first by rewrite forward_dist.
by rewrite forward_lossE /spec_loss mxE Hd.
Qed.

Section LossCases.

Variables n_items D B N : nat.
Variable self : Lorentz n_items D.
Variable I : 'cV['I_n_items]_B.
Variable Ks : 'M['I_n_items]_(B, N.+1).
Variable b : 'I_B.

Hypothesis products_not_nan :
  forall k : 'I_N.+1,
    ~~ isnan (lorentz_scalar_product (row (I b ord0) (table self))
                (row (Ks b k) (table self)) ord0 ord0).

Lemma anchor_dist_cases (k : 'I_N.+1) :
  (exists r : R, spec_dist self (I b ord0) (Ks b k) = Fin r /\ 0 <= r)
  \/ spec_dist self (I b ord0) (Ks b k) = PInf.
Proof. exact/spec_dist_cases/products_not_nan. Qed.

(** The loss of the anchor is then not NaN. *)
Lemma spec_loss_not_nan : ~~ isnan (spec_loss self I Ks b ord0).
Proof.
rewrite /spec_loss mxE (log_sum_exp_cases anchor_dist_cases); cbv zeta.
case: (anchor_dist_cases ord0) => [[r [-> Hr]]|->];
  case: (Rlt_dec _ _) => [H|H] //=.
by rewrite /overflow; case: (Rlt_dec _ _) => [H1|H1] //;
   case: (Rlt_dec _ _).
Qed.

(** A finite loss is the exact value of the formula, and strictly
    positive. *)
Lemma spec_loss_positive :
  isfinite (spec_loss self I Ks b ord0) ->
  exists l : R, spec_loss self I Ks b ord0 = Fin l /\ 0 < l.
Proof.
rewrite /spec_loss mxE (log_sum_exp_cases anchor_dist_cases); cbv zeta.
set S := \big[Rplus/0]_(k < N.+1) _.
have HS : exp_neg (spec_dist self (I b ord0) (Ks b ord0)) <= S.
  rewrite /S big_ord_recl.
  have : 0 <= \big[Rplus/0]_(k < N)
                 exp_neg (spec_dist self (I b ord0) (Ks b (lift ord0 k))).
    apply: sumR_ge0 => k.
    by case: (exp_neg_range anchor_dist_cases (lift ord0 k)).
  by lra.
case: (anchor_dist_cases ord0) HS => [[r [-> Hr]]|->] /=;
  case: (Rlt_dec _ _) => [H|H] //= HS Hfin.
have [E _] := overflow_finite (fneg_finite Hfin); rewrite E [fneg _]/=.
eexists; split; first by [].
have He := exp_pos (- r).
have Hlt : exp (- r) < S + 1 / 1000000 by lra.
by have := ln_increasing _ _ He Hlt; rewrite ln_exp; lra.
Qed.

End LossCases.

(** C4 (amended).  For an anchor whose Lorentzian products with its
    candidates are not NaN (as when they are computed without overflow),
    every value handed to [arcosh] is a finite number not below 1 or
    [+Inf], every hyperbolic distance is a finite non-negative number or
    [+Inf], and the loss that [forward] returns for the anchor is not
    NaN. *)
Theorem forward_arcosh_domain n_items D B N (self : Lorentz n_items D)
    (I : 'cV['I_n_items]_B) (Ks : 'M['I_n_items]_(B, N.+1)) (b : 'I_B) :
  (forall k : 'I_N.+1,
      ~~ isnan (lorentz_scalar_product (row (I b ord0) (table self))
                  (row (Ks b k) (table self)) ord0 ord0)) ->
  (forall k,
      (exists c : R,
          clamped_args self I Ks (mxvec_index b k) ord0 = Fin c /\ 1 <= c)
      \/ clamped_args self I Ks (mxvec_index b k) ord0 = PInf)
  /\ (forall k,
         (exists d : R,
             arcosh (clamped_args self I Ks (mxvec_index b k) ord0) = Fin d
             /\ 0 <= d)
         \/ arcosh (clamped_args self I Ks (mxvec_index b k) ord0) = PInf)
  /\ ~~ isnan ((forward self I Ks).1 b ord0).
Proof.
move=> Hprod; split; last split.
- by move=> k; rewrite clamped_argsE; apply/clamp_ge1/Hprod.
- by move=> k; rewrite forward_dist; apply/spec_dist_cases/Hprod.
- by rewrite forward_lossE; apply: spec_loss_not_nan.
Qed.

(** C4 at two coincident points: the table [[1, 0], [1, 0]], anchor 0 and
    candidate 1. *)
Lemma forward_arcosh_domain_witness :
  let self := MkLorentz (mx22 (Fin 1) (Fin 0) (Fin 1) (Fin 0)) in
  let I : 'cV['I_2]_1 := const_mx ord0 in
  let Ks : 'M['I_2]_(1, 1) := const_mx (lift ord0 ord0) in
  (forall k,
      (exists c : R,
          clamped_args self I Ks (mxvec_index ord0 k) ord0 = Fin c /\ 1 <= c)
      \/ clamped_args self I Ks (mxvec_index ord0 k) ord0 = PInf)
  /\ (forall k,
         (exists d : R,
             arcosh (clamped_args self I Ks (mxvec_index ord0 k) ord0) = Fin d
             /\ 0 <= d)
         \/ arcosh (clamped_args self I Ks (mxvec_index ord0 k) ord0) = PInf)
  /\ ~~ isnan ((forward self I Ks).1 ord0 ord0).
Proof.
apply: forward_arcosh_domain => k.
rewrite [table _]/= row_product_mx22 !mxE /=.
rewrite !overflow_Fin; try in_range.
by rewrite /= overflow_Fin //; in_range.
Defined.

(** ** The Poincare projection and its inverse *)

Lemma poincare_to_lorentz_0 B D (y : 'M[fval]_(B, D)) i :
  poincare_to_lorentz y i ord0 =
  fdiv (fadd (Fin 1) (\big[fadd/Fin 0]_(j < D) fmul (y i j) (y i j)))
       (fsub (Fin 1) (\big[fadd/Fin 0]_(j < D) fmul (y i j) (y i j))).
Proof. by rewrite /poincare_to_lorentz mxE unlift_none mxE. Qed.

Lemma poincare_to_lorentz_lift B D (y : 'M[fval]_(B, D)) i k :
  poincare_to_lorentz y i (lift ord0 k) =
  fdiv (fmul (Fin 2) (y i k))
       (fsub (Fin 1) (\big[fadd/Fin 0]_(j < D) fmul (y i j) (y i j))).
Proof. by rewrite /poincare_to_lorentz mxE liftK mxE. Qed.

Lemma lorentz_to_poincareE B D (u : 'M[fval]_(B, D.+1)) i j :
  lorentz_to_poincare u i j =
  fdiv (u i (lift ord0 j)) (fadd (u i ord0) (Fin 1)).
Proof. by rewrite /lorentz_to_poincare !mxE. Qed.

(** A number whose square is at most [fmax] is within the range. *)
Lemma sqr_range (a : R) : a * a <= fmax -> - fmax <= a <= fmax.
Proof.
move=> H; have := Rle_0_sqr (a - 1); have := Rle_0_sqr (a + 1).
by rewrite /Rsqr; move: fmax_val; lra.
Qed.

(** The squares that a finite self-product has summed are within the
    range. *)
Lemma self_product_range B D (x : 'M[fval]_(B, D.+1)) i :
  isfinite (lorentz_scalar_product x x i ord0) ->
  \big[Rplus/0]_(j < D)
    (fin_val (x i (lift ord0 j)) * fin_val (x i (lift ord0 j))) <= fmax
  /\ fin_val (x i ord0) * fin_val (x i ord0) <= fmax.
Proof.
move=> H; have Hfin := self_product_finite H.
move: H; rewrite lorentz_scalar_productE => /fsub_finite [Hs H0].
have [_ [_ Hr0]] := fmul_exact H0; split=> //.
move: Hs; rewrite sum_sq_overflow; first by move=> j; apply: Hfin.
by case/overflow_finite => _ [].
Qed.

Section RoundTrip.

Variables B D : nat.
Variable x : 'M[fval]_(B, D.+1).
Variable i : 'I_B.

Hypothesis x_on_hyperboloid : lorentz_scalar_product x x i ord0 = Fin (- 1).
Hypothesis x_upper_sheet : fltb (Fin 0) (x i ord0).

Local Abbreviation a := (fin_val (x i ord0)).
Local Abbreviation f := (fun j : 'I_D => fin_val (x i (lift ord0 j))).
Local Abbreviation S := (\big[Rplus/0]_(j < D) (f j * f j)).

Lemma round_trip_finite j : isfinite (x i j).
Proof. by apply: self_product_finite; rewrite x_on_hyperboloid. Qed.

Lemma round_trip_x0 : x i ord0 = Fin a.
Proof. exact/isfinite_val/round_trip_finite. Qed.

Lemma round_trip_tail j : x i (lift ord0 j) = Fin (f j).
Proof. exact/isfinite_val/round_trip_finite. Qed.

Lemma round_trip_a_pos : 0 < a.
Proof. by move: x_upper_sheet; rewrite round_trip_x0 => /RltbP. Qed.

Lemma round_trip_S : S = a * a - 1.
Proof.
have H : isfinite (lorentz_scalar_product x x i ord0).
  by rewrite x_on_hyperboloid.
have L (u v : R) : - 1 = u - v -> u = v - 1 by lra.
have [_ _] := lorentz_scalar_product_exact H.
by rewrite x_on_hyperboloid /lorentzR => -[] /L.
Qed.

Lemma round_trip_range : a * a <= fmax /\ forall j, f j * f j <= a * a - 1.
Proof.
have H : isfinite (lorentz_scalar_product x x i ord0).
  by rewrite x_on_hyperboloid.
have [_ Ha] := self_product_range H; split=> // j.
rewrite -round_trip_S.
exact: (@sumR_ge_term _ (fun j : 'I_D => f j * f j) j (fun j => Rle_0_sqr _)).
Qed.

(** The projected coordinates lie between -1 and 1. *)
Lemma round_trip_quotient j : - 1 <= f j / (a + 1) <= 1.
Proof.
have Ha := round_trip_a_pos; have [_ /(_ j) /= Hf] := round_trip_range.
have Hq : f j / (a + 1) * (a + 1) = f j by field; lra.
move: Hq Hf => /=; set q := _ / _; move: (fin_val (x i (lift ord0 j))) => u.
move=> Hq Hf; have Hu : u * u < (a + 1) * (a + 1) by lra.
split; apply: Rnot_lt_le => H.
  have H1 : u < - (a + 1) by nra.
  by nra.
have H1 : a + 1 < u by nra.
by nra.
Qed.

(** The projected row: every coordinate divided by [x_0 + 1]. *)
Lemma round_trip_poincare j :
  lorentz_to_poincare x i j = Fin (f j / (a + 1)).
Proof.
have Ha := round_trip_a_pos; have [/sqr_range Hr _] := round_trip_range.
have Hq := round_trip_quotient j.
rewrite lorentz_to_poincareE round_trip_tail round_trip_x0.
have Ha1 : a + 1 <= fmax.
  have [Haa _] := round_trip_range.
  by have := Rle_0_sqr (a - 1); rewrite /Rsqr; move: fmax_val; lra.
rewrite fadd_Fin; first by move: fmax_val; lra.
by rewrite fdiv_Fin //; move: fmax_val; lra.
Qed.

Lemma round_trip_S_ge0 : 0 <= S.
Proof. exact: (sumR_sqr_ge0 (fun j : 'I_D => f j)). Qed.

(** Its squared norm, [|y|^2 = (x_0 - 1) / (x_0 + 1)] once [S] is
    replaced: it lies in [0, 1). *)
Lemma round_trip_norm2_range : 0 <= S / ((a + 1) * (a + 1)) < 1.
Proof.
have Ha := round_trip_a_pos; have HS := round_trip_S.
have HS0 := round_trip_S_ge0.
have Hq : S / ((a + 1) * (a + 1)) * ((a + 1) * (a + 1)) = S by field; lra.
by move: Hq HS HS0; set q := S / _; move: (S) => S0 Hq HS HS0; nra.
Qed.

Lemma round_trip_norm2 :
  \big[fadd/Fin 0]_(j < D)
     fmul (lorentz_to_poincare x i j) (lorentz_to_poincare x i j) =
  Fin (S / ((a + 1) * (a + 1))).
Proof.
have Ha := round_trip_a_pos; have Hn := round_trip_norm2_range.
have Hsum :
    \big[Rplus/0]_(j < D) (f j / (a + 1) * (f j / (a + 1))) =
    S / ((a + 1) * (a + 1)).
  by rewrite (sumR_scale (fun j : 'I_D => f j)) //; lra.
have Hterm (j : 'I_D) :
    fmul (lorentz_to_poincare x i j) (lorentz_to_poincare x i j) =
    Fin (f j / (a + 1) * (f j / (a + 1))).
  rewrite round_trip_poincare fmul_Fin //.
  by have := round_trip_quotient j; move: fmax_val; nra.
under eq_bigr => j _ do rewrite Hterm.
rewrite sum_Fin ?Hsum //; first by move=> j; apply: Rle_0_sqr.
by move: fmax_val; lra.
Qed.

Lemma round_trip_den :
  1 - S / ((a + 1) * (a + 1)) = 2 / (a + 1) /\ 2 / (a + 1) <> 0.
Proof.
have Ha := round_trip_a_pos; split; first by rewrite round_trip_S; field; lra.
by apply: Rmult_integral_contrapositive_currified;
   [lra | apply: Rinv_neq_0_compat; lra].
Qed.

Lemma round_trip_entry_0 :
  poincare_to_lorentz (lorentz_to_poincare x) i ord0 = x i ord0.
Proof.
have Ha := round_trip_a_pos; have [Hden Hden0] := round_trip_den.
have Hn := round_trip_norm2_range.
have [/sqr_range Hr _] := round_trip_range.
have E : (1 + S / ((a + 1) * (a + 1))) / (1 - S / ((a + 1) * (a + 1))) = a.
  by rewrite Hden round_trip_S; field; lra.
rewrite poincare_to_lorentz_0 round_trip_norm2 round_trip_x0.
move: E Hn Hden Hden0; set n2 := S / _ => E Hn Hden Hden0.
rewrite fadd_Fin; first by move: fmax_val; lra.
rewrite fsub_Fin; first by move: fmax_val; lra.
by rewrite fdiv_Fin ?E // Hden.
Qed.

Lemma round_trip_entry_lift (k : 'I_D) :
  poincare_to_lorentz (lorentz_to_poincare x) i (lift ord0 k) =
  x i (lift ord0 k).
Proof.
have Ha := round_trip_a_pos; have [Hden Hden0] := round_trip_den.
have Hn := round_trip_norm2_range; have Hq := round_trip_quotient k.
have [Haa /(_ k) Hf] := round_trip_range.
have Hr : - fmax <= f k <= fmax by apply: sqr_range; lra.
have E : 2 * (f k / (a + 1)) / (1 - S / ((a + 1) * (a + 1))) = f k.
  by rewrite Hden; field; lra.
rewrite poincare_to_lorentz_lift round_trip_norm2 round_trip_poincare.
rewrite round_trip_tail.
move: E Hn Hden Hden0 Hq; set n2 := S / _; set q := _ / (a + 1).
move=> E Hn Hden Hden0 Hq.
rewrite fmul_Fin; first by move: fmax_val; lra.
rewrite fsub_Fin; first by move: fmax_val; lra.
by rewrite fdiv_Fin ?E // Hden.
Qed.

Lemma round_trip_entry j :
  poincare_to_lorentz (lorentz_to_poincare x) i j = x i j.
Proof.
case: (unliftP ord0 j) => [k ->|->]; first exact: round_trip_entry_lift.
exact: round_trip_entry_0.
Qed.

End RoundTrip.

(** C8.  For a row on the upper sheet of the hyperboloid ([<x,x>_L = -1],
    [x_0 > 0]), the projection to the Poincare ball followed by the inverse
    reconstruction gives the row back; the projection is a function of the
    table, which it leaves as it was. *)
Theorem lorentz_to_poincare_round_trip B D (x : 'M[fval]_(B, D.+1))
    (i : 'I_B) :
  lorentz_scalar_product x x i ord0 = Fin (- 1) ->
  fltb (Fin 0) (x i ord0) ->
  row i (poincare_to_lorentz (lorentz_to_poincare x)) = row i x
  /\ lorentz_to_poincare_call (MkLorentz x) =
     (lorentz_to_poincare x, MkLorentz x).
Proof.
move=> Hx H0; split=> //.
by apply/rowP=> j; rewrite [LHS]mxE [RHS]mxE round_trip_entry.
Qed.

(** The Lorentzian self-product of [[1, 0]]. *)
Lemma base_point_product :
  lorentz_scalar_product (mx12 (Fin 1) (Fin 0)) (mx12 (Fin 1) (Fin 0))
    ord0 ord0 = Fin (- 1).
Proof.
rewrite lorentz_scalar_product_mx12 !fmul_Fin; try in_range.
by rewrite fsub_Fin; [in_range | congr Fin; lra].
Qed.

(** C8 at the base point [[1, 0]] of the hyperboloid. *)
Lemma lorentz_to_poincare_round_trip_witness :
  let x := mx12 (Fin 1) (Fin 0) in
  row ord0 (poincare_to_lorentz (lorentz_to_poincare x)) = row ord0 x
  /\ lorentz_to_poincare_call (MkLorentz x) =
     (lorentz_to_poincare x, MkLorentz x).
Proof.
apply: lorentz_to_poincare_round_trip.
- exact: base_point_product.
- by rewrite mx12_0; apply/RltbP; lra.
Defined.

(** ** The inverse hyperbolic cosine *)










(** X2.  Strictly between -1 and 1 the formula of [arcosh] has no value:
    the result is NaN, the square root of the negative number [x^2 - 1]. *)
Theorem arcosh_below_one (x : R) : - 1 < x < 1 -> arcosh (Fin x) = NaN.
Proof.
move=> Hx; have Hxx : 0 <= x * x < 1 by nra.
rewrite /arcosh fmul_Fin; first by move: fmax_val; lra.
rewrite fsub_Fin; first by move: fmax_val; lra.
by rewrite /fsqrt; case: (Rlt_dec _ _) => [H|H] //; lra.
Qed.

(** X2 at the argument 0. *)
Lemma arcosh_below_one_witness : - 1 < 0 < 1 /\ arcosh (Fin 0) = NaN.
Proof. by split; [lra | apply: arcosh_below_one; lra]. Defined.

(** ** The exponential map stays on the hyperboloid *)








Section ExpMapHyperboloid.

Variables B D : nat.
Variables x v : 'M[fval]_(B, D.+1).
Variable i : 'I_B.

Local Abbreviation X := (fun j : 'I_D.+1 => fin_val (x i j)).
Local Abbreviation V := (fun j : 'I_D.+1 => fin_val (v i j)).

Hypothesis x_on_hyperboloid : lorentzR X X = - 1.
Hypothesis v_tangent : (forall j, isfinite (v i j)) -> lorentzR X V = 0.







End ExpMapHyperboloid.



(** *** At the base point of the hyperboloid *)

Section BasePoint.

Variable lr : R.
Hypothesis lr_pos : 0 < lr.
Hypothesis lr_le1 : lr <= 1.





End BasePoint.



(** ** The optimizer: what lines 70-71 read and write *)

(** X5.  The recomputation of coordinate 0 (lines 70-71, 88-89) reads the
    coordinates 1.. only and writes coordinate 0 only: the coordinates 1..
    are left as they were, and a second application changes nothing. *)
Theorem set_dim0_idempotent B D (t : 'M[fval]_(B, D.+1)) :
  col' ord0 (set_dim0 t) = col' ord0 t
  /\ set_dim0 (set_dim0 t) = set_dim0 t.
Proof.
split; first by apply/matrixP=> i j; rewrite [LHS]mxE [RHS]mxE set_dim0E.
apply/matrixP=> i j; rewrite set_dim0E [RHS]set_dim0E.
case Hj: (j == ord0); last by rewrite set_dim0E Hj.
congr (fsqrt (fadd _ (fsqrt _))).
by apply: eq_bigr => k _; rewrite set_dim0E.
Qed.

(** ** The optimizer: degenerate gradients *)

(** Entries that are zero or NaN stay so under the operations of a step. *)

Lemma zn_fmul_r (x y : fval) : zero_or_nan y -> zero_or_nan (fmul x y).
Proof.
case=> ->; last by right; rewrite fmul_NaN_r.
by case: x => [a|||];
   rewrite /zero_or_nan /= ?Rsign_0 ?Rmult_0_r ?overflow_0;
   [left | right | right | right].
Qed.

Lemma zn_fmul_l (x y : fval) : zero_or_nan x -> zero_or_nan (fmul x y).
Proof. by rewrite fmulC; apply: zn_fmul_r. Qed.

Lemma zn_fadd (x y : fval) :
  zero_or_nan x -> zero_or_nan y -> zero_or_nan (fadd x y).
Proof.
by case=> -> [] ->; rewrite /zero_or_nan /= ?Rplus_0_l ?overflow_0;
   [left | right | right | right].
Qed.

Lemma zn_fsub (x y : fval) :
  zero_or_nan x -> zero_or_nan y -> zero_or_nan (fsub x y).
Proof.
move=> Hx Hy; apply: zn_fadd => //.
by case: Hy => ->; rewrite /zero_or_nan /= ?Ropp_0; [left | right].
Qed.

Lemma zn_fdiv_l (x y : fval) : zero_or_nan x -> zero_or_nan (fdiv x y).
Proof.
case=> ->; last by right.
case: y => [b|||]; rewrite /zero_or_nan /=; [|by left|by left|by right].
case: (Req_dec_T _ _) => [E|E]; first by rewrite Rsign_0; right.
by left; rewrite /Rdiv Rmult_0_l overflow_0.
Qed.

Lemma zn_fsqrt (x : fval) : zero_or_nan x -> zero_or_nan (fsqrt x).
Proof.
case=> ->; last by right.
by left; rewrite fsqrt_Fin ?sqrt_0 //; lra.
Qed.

Lemma zn_sum (n : nat) (F : 'I_n -> fval) :
  (forall j, zero_or_nan (F j)) -> zero_or_nan (\big[fadd/Fin 0]_(j < n) F j).
Proof.
by move=> H; elim/big_ind: _ => [|x y Hx Hy|j _] //;
   [left | apply: zn_fadd].
Qed.

Lemma zn_not_pos (x : fval) : zero_or_nan x -> fltb (Fin 0) x = false.
Proof. by case=> -> //=; rewrite Rltb_irrefl. Qed.

Lemma sum_zero (n : nat) : \big[fadd/Fin 0]_(j < n) Fin 0 = Fin 0.
Proof.
by elim/big_rec: _ => [|j x _ ->] //=; rewrite Rplus_0_l overflow_0.
Qed.

Section DegenerateGradient.

Variables B D : nat.
Implicit Types p g v x y : 'M[fval]_(B, D.+1).

Lemma zn_lorentz_scalar_product x y i :
  (forall j, zero_or_nan (y i j)) ->
  zero_or_nan (lorentz_scalar_product x y i ord0).
Proof.
move=> Hy; rewrite lorentz_scalar_productE.
by apply: zn_fsub; [apply: zn_sum => k|]; apply: zn_fmul_r.
Qed.

(** A displacement whose entries are zero or NaN has a tangent norm that is
    zero or NaN, so the exponential map returns the point. *)
Lemma exp_map_null x v : (forall i j, zero_or_nan (v i j)) -> exp_map x v = x.
Proof.
move=> Hv; apply/matrixP=> i j.
rewrite exp_mapE zn_not_pos // /tangent_norm mxE.
by apply: zn_fsqrt; apply: zn_lorentz_scalar_product.
Qed.

(** When every entry of the normalised gradient is zero or NaN, so is every
    entry of the direction, of its projection and of the displacement. *)
Lemma step_update_null_direction lr p g :
  (forall i j, zero_or_nan (fdiv (g i j) (norm_all g))) ->
  step_update lr p g = set_dim0 p.
Proof.
move=> Hg; rewrite /step_update.
have Hh i j : zero_or_nan (riemannian_grad g i j).
  rewrite /riemannian_grad /matmul mxE.
  by apply: zn_sum => k; apply: zn_fmul_l; rewrite mxE.
rewrite exp_map_null ?nan_inf_fallback_same // => i j.
rewrite mxE tangent_projE; apply: zn_fmul_r; apply: zn_fsub => //.
by apply: zn_fmul_l; apply: zn_fdiv_l; apply: zn_lorentz_scalar_product.
Qed.

Lemma norm_all_zero : norm_all (const_mx (Fin 0) : 'M[fval]_(B, D.+1)) = Fin 0.
Proof.
rewrite /norm_all.
have E (i : 'I_B) :
    \big[fadd/Fin 0]_(j < D.+1)
       fmul ((const_mx (Fin 0) : 'M[fval]_(B, D.+1)) i j)
            ((const_mx (Fin 0) : 'M[fval]_(B, D.+1)) i j) = Fin 0.
  rewrite -[RHS](sum_zero D.+1); apply: eq_bigr => j _.
  by rewrite mxE /= Rmult_0_l overflow_0.
under eq_bigr => i _ do rewrite E.
by rewrite sum_zero fsqrt_Fin ?sqrt_0 //; lra.
Qed.

(** A finite whole-tensor norm needs finite entries. *)
Lemma norm_all_finite g :
  isfinite (norm_all g) -> forall i j, isfinite (g i j).
Proof.
rewrite /norm_all => /fsqrt_finite H i j; apply: fmul_self_finite.
exact: (sum_finite (sum_finite H i) j).
Qed.

End DegenerateGradient.

(** X6.  A gradient that is zero everywhere moves nothing: its norm is 0,
    the normalised gradient 0 / 0 is NaN, and the step stores the table with
    coordinate 0 recomputed and every other coordinate as it was. *)
Theorem step_update_zero_grad B D (lr : fval) (p : 'M[fval]_(B, D.+1)) :
  step_update lr p (const_mx (Fin 0)) = set_dim0 p
  /\ step (RSGD_init [:: Param p (Some (const_mx (Fin 0)))] (Some lr)) =
     RSGD_init [:: Param (set_dim0 p) (Some (const_mx (Fin 0)))] (Some lr).
Proof.
have H : step_update lr p (const_mx (Fin 0)) = set_dim0 p.
  apply: step_update_null_direction => i j.
  by rewrite norm_all_zero mxE fdiv_0_0; right.
by split=> //; rewrite /step /RSGD_init /= /step_group /= /step_param /= H.
Qed.

(** X7.  One entry of the gradient that is NaN or infinite, anywhere, stalls
    every row of the parameter: the whole-tensor norm is NaN or infinite,
    every entry of the normalised gradient is NaN or zero, and the step
    stores the table with coordinate 0 recomputed and every other coordinate
    as it was. *)
Theorem step_update_nonfinite_grad B D (lr : fval) (p g : 'M[fval]_(B, D.+1))
    (i : 'I_B) (j : 'I_D.+1) :
  ~~ isfinite (g i j) -> step_update lr p g = set_dim0 p.
Proof.
move=> Hg; apply: step_update_null_direction => i' j'.
case E: (norm_all g) => [n|||].
- by move: Hg; rewrite (@norm_all_finite _ _ g) // E.
- by case: (g i' j') => [a|||]; rewrite /zero_or_nan /=;
     [left | right | right | right].
- by case: (@fsqrt_not_NInf _ E).
- by right; rewrite fdiv_NaN_r.
Qed.

(** X7 at the table [[1, 0], [1, 0]] with a gradient whose only infinite
    entry is in row 0. *)
Lemma step_update_nonfinite_grad_witness :
  let p := mx22 (Fin 1) (Fin 0) (Fin 1) (Fin 0) in
  let g := mx22 PInf (Fin 0) (Fin 0) (Fin 1) in
  step_update (Fin (1 / 10)) p g = set_dim0 p.
Proof.
apply: (@step_update_nonfinite_grad _ _ _ _ _ ord0 ord0).
by rewrite mxE.
Defined.

(** X8.  With a learning rate of zero nothing moves, whatever the gradient
    is: every entry of the displacement is zero or NaN, and the step stores
    the table with coordinate 0 recomputed and every other coordinate as it
    was. *)
Theorem step_update_zero_lr B D (p g : 'M[fval]_(B, D.+1)) :
  step_update (Fin 0) p g = set_dim0 p.
Proof.
rewrite /step_update exp_map_null ?nan_inf_fallback_same // => i j.
by rewrite mxE; apply: zn_fmul_l; left; rewrite /= Ropp_0.
Qed.

(** ** The optimizer: finite coordinates stay finite *)

(** X9.  A row whose coordinates 1.. are finite keeps finite coordinates
    1.. under a step, whatever the gradient and the learning rate are (NaN
    and infinite ones included); coordinate 0 of the stored row is a number
    not below 1, or [+Inf] when the sum of squares read by line 70
    overflows. *)
Theorem step_update_finite B D (lr : fval) (p g : 'M[fval]_(B, D.+1))
    (i : 'I_B) :
  (forall k : 'I_D, isfinite (p i (lift ord0 k))) ->
  (forall k : 'I_D, isfinite (step_update lr p g i (lift ord0 k)))
  /\ ((exists c : R, step_update lr p g i ord0 = Fin c /\ 1 <= c)
      \/ step_update lr p g i ord0 = PInf).
Proof.
move=> Hp; rewrite /step_update.
set u := nan_inf_fallback p _.
have Hu (k : 'I_D) : isfinite (u i (lift ord0 k)).
  exact: nan_inf_fallback_finite.
split=> [k|]; first by rewrite set_dim0E /=; apply: Hu.
rewrite set_dim0_time //; cbv zeta.
case: (Rlt_dec _ _) => [H|H]; [by right | left].
eexists; split; first by [].
by apply: sqrt_ge1; apply: sqrt_pos.
Qed.

(** X9 at the table [[1, 0]] with the gradient [[NaN, +Inf]] and an infinite
    learning rate. *)
Lemma step_update_finite_witness :
  let p := mx12 (Fin 1) (Fin 0) in
  let g := mx12 NaN PInf in
  (forall k : 'I_1, isfinite (step_update PInf p g ord0 (lift ord0 k)))
  /\ ((exists c : R, step_update PInf p g ord0 ord0 = Fin c /\ 1 <= c)
      \/ step_update PInf p g ord0 ord0 = PInf).
Proof.
by apply: step_update_finite => k; rewrite [k]ord1 mx12_1.
Defined.

(** ** The optimizer: when the stored row is on the hyperboloid *)

(** X10.  After lines 70-71 (and 88-89), a row with finite coordinates 1..
    is on the hyperboloid exactly when the sum [S] of the squares of these
    coordinates is 0 or 1. *)
Theorem set_dim0_hyperboloid_iff B D (t : 'M[fval]_(B, D.+1)) (i : 'I_B) :
  (forall k : 'I_D, isfinite (t i (lift ord0 k))) ->
  let S := \big[Rplus/0]_(k < D)
              (fin_val (t i (lift ord0 k)) * fin_val (t i (lift ord0 k))) in
  lorentz_scalar_product (set_dim0 t) (set_dim0 t) i ord0 = Fin (- 1)
  <-> S = 0 \/ S = 1.
Proof.
move=> Hfin S.
have HS : 0 <= S by apply: sumR_sqr_ge0.
have Hs := sqrt_pos S.
have Hss : sqrt S * sqrt S = S by rewrite sqrt_sqrt.
have Hle : S <= fmax ->
    lorentz_scalar_product (set_dim0 t) (set_dim0 t) i ord0 =
    Fin (S - sqrt S - 1).
  by move=> Hle; rewrite set_dim0_self_product.
split=> [H|[H|H]].
- have Hf : isfinite (lorentz_scalar_product (set_dim0 t) (set_dim0 t) i ord0).
    by rewrite H.
  have [HSle _] := self_product_range Hf.
  have {}HSle : S <= fmax.
    apply: Rle_trans HSle; apply: Req_le; apply: eq_bigr => k _.
    by rewrite set_dim0E.
  move: H; rewrite Hle // => -[H].
  have : sqrt S * (sqrt S - 1) = 0 by lra.
  by case/Rmult_integral => H'; [left | right]; nra.
- rewrite Hle; first by rewrite H fmax_val; lra.
  by rewrite H sqrt_0; congr Fin; lra.
- rewrite Hle; first by rewrite H fmax_val; lra.
  by rewrite H sqrt_1; congr Fin; lra.
Qed.

(** X10 at the row [[0, 1]]: [S = 1], and the stored row [[sqrt 2, 1]] is on
    the hyperboloid. *)
Lemma set_dim0_hyperboloid_iff_witness :
  let t := mx12 (Fin 0) (Fin 1) in
  let S := \big[Rplus/0]_(k < 1)
              (fin_val (t ord0 (lift ord0 k))
               * fin_val (t ord0 (lift ord0 k))) in
  lorentz_scalar_product (set_dim0 t) (set_dim0 t) ord0 ord0 = Fin (- 1)
  <-> S = 0 \/ S = 1.
Proof. by apply: set_dim0_hyperboloid_iff => k; rewrite [k]ord1 mx12_1. Defined.

(** ** The optimizer: parameters without a gradient *)

Lemma map_id_all (T : Type) (f : T -> T) (a : pred T) (s : seq T) :
  (forall x, a x -> f x = x) -> all a s -> map f s = s.
Proof.
by move=> H; elim: s => [|x s IH] //= /andP [/H -> /IH ->].
Qed.

(** X11.  A step is the identity on an optimizer none of whose parameters has
    a gradient: every parameter is skipped. *)
Theorem step_no_grad B D (self : RSGD B D) :
  all (fun group => all (fun p => ~~ isSome (grad p)) (params group))
      (param_groups self) ->
  step self = self.
Proof.
case: self => groups /= H; rewrite /step /=; congr MkRSGD.
apply: map_id_all H => -[ps lr] /= H; rewrite /step_group /=; congr ParamGroup.
by apply: map_id_all H => -[d [g|]].
Qed.

(** X11 at one parameter, the table [[1, 0]], with no gradient. *)
Lemma step_no_grad_witness :
  let self := RSGD_init [:: Param (mx12 (Fin 1) (Fin 0)) None] None in
  step self = self.
Proof. exact: step_no_grad. Defined.

(** ** The optimizer: the projection and the candidate update *)




Section Projection.

Variables B D : nat.
Variables p h : 'M[fval]_(B, D.+1).
Variable i : 'I_B.
Variable q : R.

Hypothesis self_product : lorentz_scalar_product p p i ord0 = Fin q.

Local Abbreviation P := (fun j : 'I_D.+1 => fin_val (p i j)).
Local Abbreviation H := (fun j : 'I_D.+1 => fin_val (h i j)).



End Projection.

Section StepCandidate.

Variables B D : nat.
Variables p g : 'M[fval]_(B, D.+1).
Variable i : 'I_B.
Variable lr : fval.

Hypothesis p_on_hyperboloid : lorentz_scalar_product p p i ord0 = Fin (- 1).

Local Abbreviation candidate :=
  (exp_map p (map_mx (fmul (fneg lr)) (tangent_proj p (riemannian_grad g)))).



End StepCandidate.





(** ** The optimizer: the scale of the gradient *)

Lemma sumR_mul_l (n : nat) (f : 'I_n -> R) (c : R) :
  \big[Rplus/0]_(j < n) (c * f j) = c * \big[Rplus/0]_(j < n) f j.
Proof. by elim/big_rec2: _ => [|j u w _ ->]; ring. Qed.

(** A finite whole-tensor norm is the exact one. *)
Lemma norm_all_exact B D (t : 'M[fval]_(B, D.+1)) :
  isfinite (norm_all t) ->
  norm_all t =
  Fin (sqrt (\big[Rplus/0]_(i < B) \big[Rplus/0]_(j < D.+1)
               (fin_val (t i j) * fin_val (t i j)))).
Proof.
rewrite /norm_all => Hfin; have [-> _] := fsqrt_exact Hfin.
have Hs := fsqrt_finite Hfin.
rewrite (sum_exact Hs) /=; congr (Fin (sqrt _)).
apply: eq_bigr => i _; have Hi := sum_finite Hs i.
rewrite (sum_exact Hi) /=; apply: eq_bigr => j _.
by rewrite (fin_val_fmul (sum_finite Hi j)).
Qed.

Section GradientScale.

Variables B D : nat.
Variable g : 'M[fval]_(B, D.+1).
Variables c n : R.

Hypothesis scale_ge1 : 1 <= c.
Hypothesis grad_norm_finite : norm_all g = Fin n.
Hypothesis grad_norm_ge1 : 1 <= n.
Hypothesis scaled_norm_finite : isfinite (norm_all (map_mx (fmul (Fin c)) g)).

Local Abbreviation G := (fun i j => fin_val (g i j)).
Local Abbreviation SS :=
  (\big[Rplus/0]_(i < B) \big[Rplus/0]_(j < D.+1) (G i j * G i j)).

Lemma grad_entry i j : g i j = Fin (G i j).
Proof. by apply/isfinite_val/norm_all_finite; rewrite grad_norm_finite. Qed.

Lemma grad_norm_value : n = sqrt SS.
Proof.
have H : isfinite (norm_all g) by rewrite grad_norm_finite.
by move: grad_norm_finite; rewrite (norm_all_exact H) => -[].
Qed.

Lemma scaled_entry i j :
  map_mx (fmul (Fin c)) g i j = Fin (c * G i j).
Proof.
have := norm_all_finite scaled_norm_finite i j.
by rewrite mxE => /fmul_exact [-> _].
Qed.

Lemma SS_ge0 : 0 <= SS.
Proof.
elim/big_ind: _ => [|u w Hu Hw|i _]; [lra | lra |].
exact: (sumR_sqr_ge0 (fun j => G i j)).
Qed.

Lemma scaled_norm :
  norm_all (map_mx (fmul (Fin c)) g) = Fin (c * n).
Proof.
rewrite (norm_all_exact scaled_norm_finite) grad_norm_value; congr Fin.
have -> : \big[Rplus/0]_(i < B) \big[Rplus/0]_(j < D.+1)
             (fin_val (map_mx (fmul (Fin c)) g i j)
              * fin_val (map_mx (fmul (Fin c)) g i j)) = c * c * SS.
  rewrite -sumR_mul_l; apply: eq_bigr => i _.
  rewrite -sumR_mul_l; apply: eq_bigr => j _.
  by rewrite scaled_entry /=; ring.
rewrite sqrt_mult; [by nra | exact: SS_ge0 |].
by rewrite sqrt_square //; lra.
Qed.

Lemma scaled_direction :
  riemannian_grad (map_mx (fmul (Fin c)) g) = riemannian_grad g.
Proof.
rewrite /riemannian_grad scaled_norm grad_norm_finite; congr (matmul _ _).
apply/matrixP=> i j; rewrite [LHS]mxE [RHS]mxE scaled_entry grad_entry /=.
case: (Req_dec_T _ _) => [E|E]; first by nra.
case: (Req_dec_T _ _) => [E'|E']; first by lra.
by congr overflow; field; lra.
Qed.

End GradientScale.

(** X14.  A step ignores the scale of the gradient: multiplying a gradient
    of norm at least 1 by a number at least 1 gives the same update as long
    as the norm of the multiple does not overflow, since the gradient is
    divided by its whole-tensor norm before use. *)
Theorem step_update_scale_invariant B D (lr : fval) (c n : R)
    (p g : 'M[fval]_(B, D.+1)) :
  1 <= c -> norm_all g = Fin n -> 1 <= n ->
  isfinite (norm_all (map_mx (fmul (Fin c)) g)) ->
  step_update lr p (map_mx (fmul (Fin c)) g) = step_update lr p g.
Proof.
move=> Hc Hn Hpos Hfin.
by rewrite /step_update (scaled_direction Hc Hn Hpos Hfin).
Qed.

(** X14 at the gradient [[0, 1]] and the factor 1000. *)
Lemma step_update_scale_invariant_witness :
  let p := mx12 (Fin 1) (Fin 0) in
  let g := mx12 (Fin 0) (Fin 1) in
  step_update (Fin (1 / 10)) p (map_mx (fmul (Fin 1000)) g) =
  step_update (Fin (1 / 10)) p g.
Proof.
apply: (@step_update_scale_invariant _ _ _ _ 1); try lra.
- rewrite norm_all_mx12 !fmul_Fin; try in_range.
  rewrite fadd_Fin; first by in_range.
  have -> : 0 * 0 + 1 * 1 = 1 by lra.
  by rewrite fsqrt_Fin ?sqrt_1 //; lra.
- rewrite map_mx12 norm_all_mx12 !fmul_Fin; try in_range.
  rewrite fadd_Fin; first by in_range.
  by rewrite fsqrt_Fin //; lra.
Defined.

(** ** The constructor: how far the initial rows are from the hyperboloid *)

Lemma sumR_le_const (n : nat) (f : 'I_n -> R) (c : R) :
  (forall k, f k <= c) -> \big[Rplus/0]_(k < n) f k <= INR n * c.
Proof.
move=> H; elim: n f H => [|n IH] f H.
  by rewrite big_ord0 /=; lra.
rewrite big_ord_recl S_INR.
have := IH (fun k => f (lift ord0 k)) (fun k => H (lift ord0 k)).
by have := H ord0; lra.
Qed.

Section InitRows.

Variables n_items D : nat.
Variable w : 'M[fval]_(n_items, D.+1).
Variable r : R.
Variable i : 'I_n_items.

Hypothesis draw : uniform_draw r w.
Hypothesis small_range : INR D * (r * r) <= 1.

Local Abbreviation W := (fun k : 'I_D => fin_val (w i (lift ord0 k))).
Local Abbreviation S := (\big[Rplus/0]_(k < D) (W k * W k)).

Lemma draw_finite (k : 'I_D) : isfinite (w i (lift ord0 k)).
Proof. by have [x [-> _]] := draw i (lift ord0 k). Qed.

Lemma draw_range_ge0 : 0 <= r.
Proof. by have [x [_ Hx]] := draw i ord0; lra. Qed.

Lemma draw_sum_le : S <= INR D * (r * r).
Proof.
apply: sumR_le_const => k.
have [x [E Hx]] := draw i (lift ord0 k).
by rewrite E /=; nra.
Qed.

Lemma draw_sum_range : S <= fmax.
Proof. by have := draw_sum_le; move: fmax_val small_range; lra. Qed.

Lemma init_self_product_bounds :
  - 1 - sqrt (INR D) * r <= S - sqrt S - 1 <= - 1.
Proof.
have Hr := draw_range_ge0; have HSle := draw_sum_le.
have HS : 0 <= S by apply: (sumR_sqr_ge0 (fun k : 'I_D => W k)).
have Hs := sqrt_pos S.
have Hss : sqrt S * sqrt S = S by rewrite sqrt_sqrt.
have HD : 0 <= INR D by apply: pos_INR.
have Hle : sqrt S <= sqrt (INR D) * r.
  have -> : sqrt (INR D) * r = sqrt (INR D * (r * r)).
    by rewrite sqrt_mult ?sqrt_square //; nra.
  by apply: sqrt_le_1_alt.
move: Hle Hss Hs HS HSle; set s := sqrt S.
move: (\big[Rplus/0]_(k < D) _) => S0 Hle Hss Hs HS HSle.
by split; nra.
Qed.

End InitRows.

(** X15.  How close the constructor keeps a row to the hyperboloid: for a
    draw within [-r, r] with [(dim - 1) r^2 <= 1], coordinate 0 of the
    stored row is a finite number not below 1, and the self-product of the
    row lies between [-1 - r sqrt (dim - 1)] and [-1]. *)
Theorem Lorentz_init_rows n_items D (w : 'M[fval]_(n_items, D.+1)) (r : R)
    (i : 'I_n_items) :
  uniform_draw r w -> INR D * (r * r) <= 1 ->
  exists c s : R,
    table (Lorentz_init w) i ord0 = Fin c /\ 1 <= c
    /\ lorentz_scalar_product (table (Lorentz_init w))
                              (table (Lorentz_init w)) i ord0 = Fin s
    /\ - 1 - sqrt (INR D) * r <= s <= - 1.
Proof.
move=> Hdraw Hsmall; rewrite /Lorentz_init /=.
have Hfin := draw_finite i Hdraw.
have Hle := draw_sum_range i Hdraw Hsmall.
rewrite set_dim0_time // set_dim0_self_product //; cbv zeta.
case: (Rlt_dec _ _) => [H|H]; first by lra.
do 2![eexists]; split; first by [].
split; first by apply: sqrt_ge1; apply: sqrt_pos.
split; first by [].
exact: init_self_product_bounds.
Qed.

(** X15 at the draw [[0, 0.001]] of the default range 0.001. *)
Lemma Lorentz_init_rows_witness :
  let w := mx12 (Fin 0) (Fin (1 / 1000)) in
  exists c s : R,
    table (Lorentz_init w) ord0 ord0 = Fin c /\ 1 <= c
    /\ lorentz_scalar_product (table (Lorentz_init w))
                              (table (Lorentz_init w)) ord0 ord0 = Fin s
    /\ - 1 - sqrt (INR 1) * (1 / 1000) <= s <= - 1.
Proof.
apply: Lorentz_init_rows; last by rewrite /=; lra.
move=> i j; elim/ord2_case: j; rewrite ?mx12_0 ?mx12_1.
  by exists 0; split=> //; lra.
by exists (1 / 1000); split=> //; lra.
Defined.

(** ** The forward pass: sign and symmetries of the loss *)

Lemma lorentz_scalar_productC B D (x y : 'M[fval]_(B, D.+1)) i :
  lorentz_scalar_product x y i ord0 = lorentz_scalar_product y x i ord0.
Proof.
rewrite !lorentz_scalar_productE fmulC; congr (fsub _ _).
by apply: eq_bigr => j _; rewrite fmulC.
Qed.

Lemma spec_distC n_items D (self : Lorentz n_items D) (a c : 'I_n_items) :
  spec_dist self a c = spec_dist self c a.
Proof. by rewrite /spec_dist lorentz_scalar_productC. Qed.

(** A NaN distance makes the loss NaN. *)
Lemma spec_loss_nan n_items D B N (self : Lorentz n_items D)
    (I : 'cV['I_n_items]_B) (Ks : 'M['I_n_items]_(B, N.+1)) b k :
  spec_dist self (I b ord0) (Ks b k) = NaN -> spec_loss self I Ks b ord0 = NaN.
Proof.
move=> Hk; rewrite /spec_loss mxE.
rewrite (@sum_NaN _ _ k); first by rewrite Hk.
by rewrite [fadd NaN _]/= [flog _]/= /fsub [fneg NaN]/= fadd_NaN_r.
Qed.

(** X16.  Whatever the table is, a loss that [forward] returns as a finite
    number is strictly positive: the sum under the logarithm contains the
    term of the positive candidate itself, and 1e-6 is added to it. *)
Theorem forward_loss_positive n_items D B N (self : Lorentz n_items D)
    (I : 'cV['I_n_items]_B) (Ks : 'M['I_n_items]_(B, N.+1)) (b : 'I_B) :
  isfinite ((forward self I Ks).1 b ord0) ->
  exists l : R, (forward self I Ks).1 b ord0 = Fin l /\ 0 < l.
Proof.
rewrite forward_lossE => Hfin; apply: spec_loss_positive => // k.
apply/negP => Hnan; move: Hfin.
rewrite (@spec_loss_nan _ _ _ _ _ _ _ _ k) //.
by apply: spec_dist_nan; case: (lorentz_scalar_product _ _ _ _) Hnan.
Qed.

(** Two rows whose Lorentzian product is not below -1 are at distance
    zero. *)
Lemma spec_dist_zero n_items D (self : Lorentz n_items D)
    (a c : 'I_n_items) (s : R) :
  lorentz_scalar_product (row a (table self)) (row c (table self)) ord0 ord0
  = Fin s ->
  - 1 <= s -> spec_dist self a c = Fin 0.
Proof.
move=> Hs Hle; rewrite /spec_dist Hs /=; case: RltbP => H.
  exact: arcosh_1.
by rewrite (_ : - s = 1) ?arcosh_1 //; lra.
Qed.

Lemma ln_le_self (y : R) : 0 < y -> ln y <= y.
Proof.
move=> Hy; have H : y < exp y by have := exp_ineq1_le y; lra.
by have := ln_increasing _ _ Hy H; rewrite ln_exp; lra.
Qed.

(** The table [[1, 0], [1, 0]], anchor 0 and candidate 1. *)
Lemma coincident_product (i k : 'I_2) :
  let T := mx22 (Fin 1) (Fin 0) (Fin 1) (Fin 0) in
  lorentz_scalar_product (row i T) (row k T) ord0 ord0 = Fin (- 1).
Proof.
cbv zeta; rewrite row_product_mx22 !mxE /=.
have -> : (if i == ord0 then Fin 0 else Fin 0) = Fin 0 by case: ifP.
have -> : (if k == ord0 then Fin 0 else Fin 0) = Fin 0 by case: ifP.
have -> : (if i == ord0 then Fin 1 else Fin 1) = Fin 1 by case: ifP.
have -> : (if k == ord0 then Fin 1 else Fin 1) = Fin 1 by case: ifP.
rewrite !fmul_Fin; try in_range.
by rewrite fsub_Fin; [in_range | congr Fin; lra].
Qed.

(** X16 at the table [[1, 0], [1, 0]], anchor 0 and candidate 1. *)
Lemma forward_loss_positive_witness :
  let self := MkLorentz (mx22 (Fin 1) (Fin 0) (Fin 1) (Fin 0)) in
  let I : 'cV['I_2]_1 := const_mx ord0 in
  let Ks : 'M['I_2]_(1, 1) := const_mx (lift ord0 ord0) in
  exists l : R, (forward self I Ks).1 ord0 ord0 = Fin l /\ 0 < l.
Proof.
apply: forward_loss_positive.
rewrite forward_lossE /spec_loss mxE.
have Hd (k : 'I_1) :
    spec_dist (MkLorentz (mx22 (Fin 1) (Fin 0) (Fin 1) (Fin 0)))
      ((const_mx ord0 : 'cV['I_2]_1) ord0 ord0)
      ((const_mx (lift ord0 ord0) : 'M['I_2]_(1, 1)) ord0 k) = Fin 0.
  apply: (@spec_dist_zero _ _ _ _ _ (- 1)); last by lra.
  exact: coincident_product.
rewrite Hd big_ord_recl big_ord0 Hd [fexp _]/= Ropp_0 exp_0.
rewrite overflow_Fin; first by in_range.
rewrite !fadd_Fin; try in_range.
have H1 : 0 <= ln (1 + 0 + 1 / 1000000) by apply: ln_nonneg; lra.
have H2 : ln (1 + 0 + 1 / 1000000) <= 1 + 0 + 1 / 1000000.
  by apply: ln_le_self; lra.
rewrite flog_Fin; first by lra.
by rewrite [fneg (Fin 0)]/= fsub_Fin //; move: fmax_val; lra.
Defined.

(** X17.  The loss does not depend on the order of the candidates after the
    first: permuting the columns 1.. of [Ks] (column 0, the positive
    candidate, staying in place) leaves the result of [forward] as it is. *)
Theorem forward_candidate_order n_items D B N (self : Lorentz n_items D)
    (I : 'cV['I_n_items]_B) (Ks : 'M['I_n_items]_(B, N.+1))
    (s : 'I_N.+1 -> 'I_N.+1) :
  injective s -> s ord0 = ord0 ->
  forward self I (\matrix_(b, k) Ks b (s k)) = forward self I Ks.
Proof.
move=> Hinj Hs0.
have E (Ks0 : 'M['I_n_items]_(B, N.+1)) :
    forward self I Ks0 = (spec_loss self I Ks0, table self).
  by rewrite [LHS]surjective_pairing forward_lossE.
rewrite !E; congr (_, _); apply/colP=> b.
set Ks' := \matrix_(b, k) Ks b (s k).
have HKs k : Ks' b k = Ks b (s k) by rewrite mxE.
pose nan k :=
  isnan (lorentz_scalar_product (row (I b ord0) (table self))
           (row (Ks b k) (table self)) ord0 ord0).
have Hnan k : nan k -> spec_dist self (I b ord0) (Ks b k) = NaN.
  by rewrite /nan => H; apply: spec_dist_nan; move: H; case: (_ _ ord0).
case: (boolP [exists k, nan k]) => [/existsP [k Hk]|].
  have [s' Hs's Hss'] := injF_bij Hinj.
  rewrite (@spec_loss_nan _ _ _ _ _ _ Ks _ k) ?Hnan //.
  by rewrite (@spec_loss_nan _ _ _ _ _ _ Ks' _ (s' k)) // HKs Hss' Hnan.
rewrite negb_exists => /forallP Hall.
have Hd k :
    (exists r : R, spec_dist self (I b ord0) (Ks b k) = Fin r /\ 0 <= r)
    \/ spec_dist self (I b ord0) (Ks b k) = PInf.
  exact/spec_dist_cases/Hall.
have Hd' k :
    (exists r : R, spec_dist self (I b ord0) (Ks' b k) = Fin r /\ 0 <= r)
    \/ spec_dist self (I b ord0) (Ks' b k) = PInf.
  by rewrite HKs.
rewrite /spec_loss [LHS]mxE [RHS]mxE HKs Hs0.
rewrite (sum_exp_dist Hd) (sum_exp_dist Hd').
congr (fneg (fsub _ (flog (fadd (overflow _) _)))).
rewrite [RHS](reindex_inj Hinj) /=.
by apply: eq_bigr => k _; rewrite HKs.
Qed.

(** X17 with two candidates after the positive one, exchanged. *)
Lemma forward_candidate_order_witness :
  let self := MkLorentz (mx22 (Fin 1) (Fin 0) (Fin 1) (Fin 0)) in
  let I : 'cV['I_2]_1 := const_mx ord0 in
  let Ks : 'M['I_2]_(1, 3) :=
    \matrix_(b, k) if val k == 2%N then ord0 else lift ord0 ord0 in
  let s : 'I_3 -> 'I_3 :=
    fun k => if val k == 1%N then @Ordinal 3 2 isT
             else if val k == 2%N then @Ordinal 3 1 isT else ord0 in
  forward self I (\matrix_(b, k) Ks b (s k)) = forward self I Ks.
Proof.
apply: forward_candidate_order; last exact: val_inj.
move=> [[|[|[|k]]] Hk] [[|[|[|k']]] Hk'] //= /(congr1 val) //= _.
- exact: val_inj.
- exact: val_inj.
- exact: val_inj.
Defined.

(** X18.  With one candidate per anchor, exchanging the anchors and the
    candidates gives the same losses: the distance is symmetric. *)
Theorem forward_symmetric n_items D B (self : Lorentz n_items D)
    (I Ks : 'cV['I_n_items]_B) :
  @forward n_items D B 0 self I Ks = @forward n_items D B 0 self Ks I.
Proof.
have E (I0 Ks0 : 'cV['I_n_items]_B) :
    @forward n_items D B 0 self I0 Ks0 = (spec_loss self I0 Ks0, table self).
  by rewrite [LHS]surjective_pairing forward_lossE.
rewrite !E; congr (_, _); apply/colP=> b.
rewrite /spec_loss [LHS]mxE [RHS]mxE !big_ord_recl !big_ord0.
by rewrite (spec_distC self (I b ord0)).
Qed.

(** ** The forward pass: pairs at distance zero *)

(** X19.  The clamp makes the distance vanish whenever the Lorentzian
    product of the two rows is not below -1 (as for two coincident points of
    the hyperboloid): the value handed to [arcosh] is then 1 and the
    distance is 0. *)
Theorem forward_distance_zero n_items D B N (self : Lorentz n_items D)
    (I : 'cV['I_n_items]_B) (Ks : 'M['I_n_items]_(B, N.+1))
    (b : 'I_B) (k : 'I_N.+1) (s : R) :
  lorentz_scalar_product (row (I b ord0) (table self))
                         (row (Ks b k) (table self)) ord0 ord0 = Fin s ->
  - 1 <= s ->
  clamped_args self I Ks (mxvec_index b k) ord0 = Fin 1
  /\ arcosh (clamped_args self I Ks (mxvec_index b k) ord0) = Fin 0.
Proof.
move=> Hs Hle.
have E : clamped_args self I Ks (mxvec_index b k) ord0 = Fin 1.
  rewrite clamped_argsE Hs /=; case: RltbP => // H.
  by congr Fin; lra.
by rewrite E arcosh_1.
Qed.

(** X19 at the table [[1, 0], [1, 0]], anchor 0 and candidate 1. *)
Lemma forward_distance_zero_witness :
  let self := MkLorentz (mx22 (Fin 1) (Fin 0) (Fin 1) (Fin 0)) in
  let I : 'cV['I_2]_1 := const_mx ord0 in
  let Ks : 'M['I_2]_(1, 1) := const_mx (lift ord0 ord0) in
  clamped_args self I Ks (mxvec_index ord0 ord0) ord0 = Fin 1
  /\ arcosh (clamped_args self I Ks (mxvec_index ord0 ord0) ord0) = Fin 0.
Proof.
apply: (@forward_distance_zero _ _ _ _ _ _ _ _ _ (- 1)); last by lra.
exact: coincident_product.
Defined.

(** ** The projection of the hyperboloid lies in the unit ball *)

(** X20.  A row on the upper sheet of the hyperboloid is projected to a
    finite point of the open unit ball: the sum of the squares of its
    projected coordinates is below 1. *)
Theorem lorentz_to_poincare_in_ball B D (x : 'M[fval]_(B, D.+1)) (i : 'I_B) :
  lorentz_scalar_product x x i ord0 = Fin (- 1) ->
  fltb (Fin 0) (x i ord0) ->
  exists n2 : R,
    \big[fadd/Fin 0]_(j < D)
       fmul (lorentz_to_poincare x i j) (lorentz_to_poincare x i j) = Fin n2
    /\ 0 <= n2 < 1.
Proof.
move=> Hx H0; rewrite (round_trip_norm2 Hx H0).
by eexists; split; [|apply: round_trip_norm2_range].
Qed.

(** X20 at the point [[sqrt 2, 1]]. *)
Lemma lorentz_to_poincare_in_ball_witness :
  let x := mx12 (Fin (sqrt 2)) (Fin 1) in
  exists n2 : R,
    \big[fadd/Fin 0]_(j < 1)
       fmul (lorentz_to_poincare x ord0 j) (lorentz_to_poincare x ord0 j) =
    Fin n2
    /\ 0 <= n2 < 1.
Proof.
have H2 : 0 < sqrt 2 by apply: sqrt_lt_R0; lra.
have Hsq : sqrt 2 * sqrt 2 = 2 by rewrite sqrt_sqrt; lra.
apply: lorentz_to_poincare_in_ball.
- rewrite lorentz_scalar_product_mx12 !fmul_Fin ?Hsq; try in_range.
  by rewrite fsub_Fin; [in_range | congr Fin; lra].
- by rewrite mx12_0; apply/RltbP.
Defined.

(** ** The projection of a stored row *)

Section StoredProjection.

Variables B D : nat.
Variable t : 'M[fval]_(B, D.+1).
Variable i : 'I_B.

Hypothesis t_finite : forall k : 'I_D, isfinite (t i (lift ord0 k)).
Hypothesis stored_finite : isfinite (set_dim0 t i ord0).

Local Abbreviation T := (fun k : 'I_D => fin_val (t i (lift ord0 k))).
Local Abbreviation S := (\big[Rplus/0]_(k < D) (T k * T k)).
Local Abbreviation c := (sqrt (1 + sqrt S)).

Lemma stored_time_ge1 : 1 <= c.
Proof. by apply: sqrt_ge1; apply: sqrt_pos. Qed.

(** The sum of squares read by line 70 has not overflowed. *)
Lemma stored_sum_range : S <= fmax.
Proof.
move: stored_finite; rewrite set_dim0_time //; cbv zeta.
by case: (Rlt_dec _ _) => [H|H] // _; lra.
Qed.

Lemma stored_time : set_dim0 t i ord0 = Fin c.
Proof.
rewrite set_dim0_time //; cbv zeta.
by case: (Rlt_dec _ _) => [H|H] //; have := stored_sum_range; lra.
Qed.

Lemma stored_entry_range (j : 'I_D) : T j * T j <= fmax.
Proof.
apply: Rle_trans stored_sum_range.
exact: (@sumR_ge_term _ (fun j : 'I_D => T j * T j) j (fun j => Rle_0_sqr _)).
Qed.

Lemma stored_quotient (j : 'I_D) :
  T j / (c + 1) * (T j / (c + 1)) <= T j * T j.
Proof.
have Hc := stored_time_ge1.
have Hq : T j / (c + 1) * (c + 1) = T j by field; lra.
by move: Hq Hc; set q := T j / _; set cc := sqrt (1 + _) => Hq Hc; nra.
Qed.

Lemma stored_poincare j :
  lorentz_to_poincare (set_dim0 t) i j = Fin (T j / (c + 1)).
Proof.
have Hc := stored_time_ge1.
have Hc2 : c <= 2 * fmax / 3.
  have HS := stored_sum_range; have HS0 := sumR_sqr_ge0 (fun k : 'I_D => T k).
  have H1 := sqrt_le_succ HS0.
  have H2 : 0 <= 1 + sqrt S by have := sqrt_pos S; lra.
  have H3 := sqrt_le_succ H2.
  by move: H1 H3 HS; set cc := sqrt (1 + _); set s := sqrt _;
     move: fmax_val; lra.
have Ej : set_dim0 t i (lift ord0 j) = t i (lift ord0 j).
  by rewrite set_dim0E.
rewrite lorentz_to_poincareE stored_time Ej.
move: Hc Hc2; set cc := sqrt (1 + _) => Hc Hc2.
rewrite {1}(isfinite_val (t_finite j)) fadd_Fin; first by move: fmax_val; lra.
rewrite fdiv_Fin //; first by lra.
apply: sqr_range; apply: Rle_trans (stored_quotient j) _.
exact: stored_entry_range.
Qed.

Lemma stored_norm2 :
  \big[fadd/Fin 0]_(j < D)
     fmul (lorentz_to_poincare (set_dim0 t) i j)
          (lorentz_to_poincare (set_dim0 t) i j) =
  Fin (S / ((c + 1) * (c + 1))).
Proof.
have Hc := stored_time_ge1.
have Hterm (j : 'I_D) :
    fmul (lorentz_to_poincare (set_dim0 t) i j)
         (lorentz_to_poincare (set_dim0 t) i j) =
    Fin (T j / (c + 1) * (T j / (c + 1))).
  rewrite stored_poincare fmul_Fin //.
  have := stored_quotient j; have := stored_entry_range j.
  have := Rle_0_sqr (T j / (c + 1)); rewrite /Rsqr.
  by move: fmax_val; lra.
have Hsum :
    \big[Rplus/0]_(j < D) (T j / (c + 1) * (T j / (c + 1))) =
    S / ((c + 1) * (c + 1)).
  by rewrite (sumR_scale (fun j : 'I_D => T j)) //; lra.
under eq_bigr => j _ do rewrite Hterm.
rewrite sum_Fin ?Hsum //; first by move=> j; apply: Rle_0_sqr.
rewrite -Hsum; apply: Rle_trans stored_sum_range.
elim/big_ind2: _ => [|u1 u2 w1 w2 Hu Hw|j _]; [lra | lra |].
exact: stored_quotient.
Qed.

Lemma stored_in_ball : S / ((c + 1) * (c + 1)) < 1 <-> S < 9.
Proof.
have Hc := stored_time_ge1.
have HS : 0 <= S by apply: (sumR_sqr_ge0 (fun k : 'I_D => T k)).
have Hs := sqrt_pos S.
have Hss : sqrt S * sqrt S = S by rewrite sqrt_sqrt.
have Hcc : c * c = 1 + sqrt S by rewrite sqrt_sqrt; lra.
have Hq : S / ((c + 1) * (c + 1)) * ((c + 1) * (c + 1)) = S by field; lra.
move: Hq Hcc Hc Hss Hs HS; set q := S / _; set cc := sqrt (1 + _).
set s := sqrt _; move: (\big[Rplus/0]_(k < D) _) => S0 Hq Hcc Hc Hss Hs HS.
have H1 : q < 1 <-> s < cc + 1 by split=> H; nra.
have H2 : s < cc + 1 <-> s < 3 by split=> H; nra.
have H3 : s < 3 <-> S0 < 9 by split=> H; nra.
by rewrite H1 H2 H3.
Qed.

End StoredProjection.

(** X21.  What the visualisation receives for a row stored by the
    constructor or by a step: when coordinates 1.. are finite and the stored
    coordinate 0 is finite (the sum of squares read by line 70 has not
    overflowed), the projected row is finite, and it lies in the open unit
    ball exactly when the sum of the squares of coordinates 1.. is below
    9. *)
Theorem lorentz_to_poincare_stored B D (t : 'M[fval]_(B, D.+1)) (i : 'I_B) :
  (forall k : 'I_D, isfinite (t i (lift ord0 k))) ->
  isfinite (set_dim0 t i ord0) ->
  let S := \big[Rplus/0]_(k < D)
              (fin_val (t i (lift ord0 k)) * fin_val (t i (lift ord0 k))) in
  exists n2 : R,
    \big[fadd/Fin 0]_(j < D)
       fmul (lorentz_to_poincare (set_dim0 t) i j)
            (lorentz_to_poincare (set_dim0 t) i j) = Fin n2
    /\ (n2 < 1 <-> S < 9).
Proof.
move=> Hfin Hst S; rewrite stored_norm2 //.
by eexists; split; [|apply: stored_in_ball].
Qed.

(** X21 at the row [[0, 3]]: the projection is on the unit circle. *)
Lemma lorentz_to_poincare_stored_witness :
  let t := mx12 (Fin 0) (Fin 3) in
  let S := \big[Rplus/0]_(k < 1)
              (fin_val (t ord0 (lift ord0 k))
               * fin_val (t ord0 (lift ord0 k))) in
  exists n2 : R,
    \big[fadd/Fin 0]_(j < 1)
       fmul (lorentz_to_poincare (set_dim0 t) ord0 j)
            (lorentz_to_poincare (set_dim0 t) ord0 j) = Fin n2
    /\ (n2 < 1 <-> S < 9).
Proof.
apply: lorentz_to_poincare_stored => [k|]; first by rewrite [k]ord1 mx12_1.
by rewrite set_dim0_mx12 ?mx12_0 //; in_range.
Defined.

(** ** The random graph of questions and documents *)

Lemma foldl_rcons_map (T U : Type) (f : T -> U) (s : seq T) (acc : seq U) :
  foldl (fun acc x => rcons acc (f x)) acc s = acc ++ map f s.
Proof.
elim: s acc => [|x s IH] acc /=; first by rewrite cats0.
by rewrite IH -cats1 -catA.
Qed.

Lemma foldl_rcons_flatten (G : nat -> seq nat) (s : seq nat)
    (acc : seq (nat * nat)) :
  foldl (fun pairs i => foldl (fun pairs j => rcons pairs (j, i)) pairs (G i))
        acc s =
  acc ++ flatten [seq [seq (j, i) | j <- G i] | i <- s].
Proof.
elim: s acc => [|i s IH] acc /=; first by rewrite cats0.
by rewrite IH foldl_rcons_map catA.
Qed.

(** The two nested loops of [insert] list, for every document in turn, the
    edges from its question nodes. *)
Lemma insertE (q d : nat) (permutation : nat -> seq nat -> seq nat)
    (randint : nat -> nat) :
  insert q d permutation randint =
  flatten [seq [seq (j, i) | j <- take (randint i)
                                    (permutation i (arange 0 q))]
          | i <- arange q (q + d)].
Proof.
rewrite /insert /=.
exact: (foldl_rcons_flatten
          (fun i => take (randint i) (permutation i (arange 0 q)))).
Qed.

Lemma mem_arange (a b i : nat) : (i \in arange a b) = (a <= i < b)%N.
Proof.
rewrite /arange mem_iota; case: (leqP a b) => Hab.
  by rewrite subnKC.
have -> : (b - a = 0)%N by apply/eqP; rewrite subn_eq0 ltnW.
rewrite addn0; apply/idP/idP => /andP [Hai Hi].
  by move: (leq_trans Hi Hai); rewrite ltnn.
by move: (leq_trans (ltn_trans Hi Hab) Hai); rewrite ltnn.
Qed.

Section TaggedLists.

Variable F : nat -> seq nat.

Lemma mem_flatten_tagged (s : seq nat) (j i : nat) :
  ((j, i) \in flatten [seq [seq (j, i) | j <- F i] | i <- s]) =
  (i \in s) && (j \in F i).
Proof.
apply/flatten_mapP/andP => [[i' Hi' /mapP [j' Hj' [-> ->]]] //|[Hi Hj]].
by exists i => //; apply/mapP; exists j.
Qed.

Lemma uniq_flatten_tagged (s : seq nat) :
  uniq s -> (forall i, uniq (F i)) ->
  uniq (flatten [seq [seq (j, i) | j <- F i] | i <- s]).
Proof.
move=> Hs HF; elim: s Hs => [|i s IH] //= /andP [Hi Hs].
rewrite cat_uniq IH // andbT map_inj_uniq ?HF /=; first by move=> j j' [].
apply/hasPn => -[j' i']; rewrite mem_flatten_tagged => /andP [Hi' _].
apply/negP => /mapP [j'' _ [_ E]].
by move: Hi; rewrite -E Hi'.
Qed.

Lemma count_flatten_tagged (s : seq nat) (i : nat) :
  uniq s ->
  count (fun e => e.2 == i) (flatten [seq [seq (j, i) | j <- F i] | i <- s]) =
  if i \in s then size (F i) else 0%N.
Proof.
elim: s => [|i' s IH] //= /andP [Hi' Hs].
rewrite count_cat IH // count_map inE.
case: (eqVneq i i') => [->|Hne] /=.
  rewrite (negbTE Hi') addn0 -[RHS]count_predT.
  by apply: eq_count => j /=; rewrite eqxx.
rewrite -[RHS]add0n; congr addn.
rewrite -[RHS](count_pred0 (F i')); apply: eq_count => j /=.
by rewrite eq_sym (negbTE Hne).
Qed.

End TaggedLists.

Section Insert.

Variables q d : nat.
Variable permutation : nat -> seq nat -> seq nat.
Variable randint : nat -> nat.

Hypothesis draws : random_draws permutation randint.

Lemma drawn_uniq (i : nat) :
  uniq (take (randint i) (permutation i (arange 0 q))).
Proof.
apply: take_uniq; rewrite (perm_uniq (proj1 draws i _)).
exact: iota_uniq.
Qed.

Lemma drawn_mem (i j : nat) :
  j \in take (randint i) (permutation i (arange 0 q)) -> (j < q)%N.
Proof.
move/mem_take; rewrite (perm_mem (proj1 draws i _)) mem_arange.
by [].
Qed.

Lemma drawn_size (i : nat) :
  size (take (randint i) (permutation i (arange 0 q))) = minn (randint i) q.
Proof.
by rewrite size_take_min (perm_size (proj1 draws i _)) size_iota subn0.
Qed.

End Insert.

(** X22.  Every edge listed by [insert(q, d)] goes from a question node to a
    document node: its first component is below [q] and its second one in
    [q, q + d). *)
Theorem insert_edges (q d : nat) (permutation : nat -> seq nat -> seq nat)
    (randint : nat -> nat) (j i : nat) :
  random_draws permutation randint ->
  (j, i) \in insert q d permutation randint ->
  (j < q)%N /\ (q <= i < q + d)%N.
Proof.
move=> Hd; rewrite insertE mem_flatten_tagged mem_arange => /andP [Hi Hj].
by split=> //; apply: (drawn_mem Hd Hj).
Qed.

(** X22 at one question and one document. *)
Lemma insert_edges_witness : (0 < 1)%N /\ (1 <= 1 < 1 + 1)%N.
Proof.
by apply: (@insert_edges 1 1 (fun _ s => s) (fun _ => 1%N) 0%N 1%N).
Defined.

(** X23.  The list returned by [insert] has no repeated edge. *)
Theorem insert_uniq (q d : nat) (permutation : nat -> seq nat -> seq nat)
    (randint : nat -> nat) :
  random_draws permutation randint -> uniq (insert q d permutation randint).
Proof.
move=> Hd; rewrite insertE.
apply: (uniq_flatten_tagged
          (F := fun i => take (randint i) (permutation i (arange 0 q)))).
  exact: iota_uniq.
by move=> i; apply: drawn_uniq.
Qed.

(** X23 with three questions and two documents, the second of which takes
    two questions. *)
Lemma insert_uniq_witness :
  uniq (insert 3 2 (fun _ s => rev s)
               (fun i => if i == 3%N then 1%N else 2%N)).
Proof.
apply: insert_uniq; split=> [i s|i]; first by rewrite perm_rev.
by case: ifP.
Defined.

(** X24.  The number of edges into a document node is the smaller of its
    draw (1 or 2) and the number of question nodes: with at least one
    question node, every document receives one or two edges. *)
Theorem insert_in_degree (q d : nat) (permutation : nat -> seq nat -> seq nat)
    (randint : nat -> nat) (i : nat) :
  random_draws permutation randint -> (q <= i < q + d)%N ->
  let in_degree :=
    count (fun e => e.2 == i) (insert q d permutation randint) in
  in_degree = minn (randint i) q
  /\ ((0 < q)%N -> (1 <= in_degree <= 2)%N).
Proof.
move=> Hd Hi in_degree.
have E : in_degree = minn (randint i) q.
  rewrite /in_degree insertE.
  rewrite (count_flatten_tagged
             (fun i => take (randint i) (permutation i (arange 0 q))));
    first exact: iota_uniq.
  by rewrite mem_arange Hi; apply: drawn_size.
split=> // Hq; rewrite E; have /andP [H1 H2] := proj2 Hd i.
by rewrite leq_min H1 Hq geq_min -ltnS H2.
Qed.

(** X24 with three questions and two documents; the document 4 draws 2. *)
Lemma insert_in_degree_witness :
  let permutation := fun (_ : nat) (s : seq nat) => rev s in
  let randint := fun i : nat => if i == 3%N then 1%N else 2%N in
  let in_degree :=
    count (fun e => e.2 == 4%N) (insert 3 2 permutation randint) in
  in_degree = minn (randint 4%N) 3
  /\ ((0 < 3)%N -> (1 <= in_degree <= 2)%N).
Proof.
apply: insert_in_degree => //; split=> [i s|i]; first by rewrite perm_rev.
by case: ifP.
Defined.

(** ** The training pairs of the script *)

Section Candidates.

Variable pairs : seq (nat * nat).
Variable x : nat.

(** The loop with its [break] takes the first eligible documents, as many as
    are missing to three entries. *)
Lemma candidates_loopE (temp acc : seq nat) :
  (size acc < 3)%N ->
  candidates_loop pairs x temp acc =
  acc ++ take (3 - size acc)
              (filter [pred c | ((x, c) \notin pairs) && (c != x)] temp).
Proof.
elim: temp acc => [|c temp IH] acc Hacc /=; first by rewrite cats0.
case Hc: (_ && _); last first.
  by case: eqP => [E|_]; [rewrite E ltnn in Hacc | apply: IH].
rewrite size_rcons -(subnSK Hacc) /=; case: eqP => [E|/eqP E].
  by rewrite -E subnn take0 cats1.
rewrite IH ?size_rcons; first by rewrite ltn_neqAle E.
by rewrite -cats1 -catA.
Qed.

End Candidates.

(** X25.  The candidate list built for a pair [(x, y)] is the connected
    document [y] followed by the first two documents of the shuffled list
    that are not connected to [x] and differ from it; it has three entries
    exactly when the shuffled list holds at least two such documents. *)
Theorem candidates_loop_closed_form (pairs : seq (nat * nat)) (x y : nat)
    (temp : seq nat) :
  let eligible := [pred c | ((x, c) \notin pairs) && (c != x)] in
  candidates_loop pairs x temp [:: y] = y :: take 2 (filter eligible temp)
  /\ (size (candidates_loop pairs x temp [:: y]) == 3%N) =
     (2 <= count eligible temp)%N.
Proof.
move=> eligible; rewrite candidates_loopE //=; split=> //.
rewrite size_take_min size_filter -/eligible eqSS.
by case: (count eligible temp) => [|[|[|n]]].
Qed.

Lemma foldl_rcons2 (T U V : Type) (f : T -> U) (g : T -> V) (s : seq T)
    (a : seq U) (b : seq V) :
  foldl (fun ab t => (rcons ab.1 (f t), rcons ab.2 (g t))) (a, b) s =
  (a ++ map f s, b ++ map g s).
Proof.
elim: s a b => [|t s IH] a b /=; first by rewrite !cats0.
by rewrite IH -!cats1 -!catA.
Qed.

Lemma training_pairsE (num_q num_d : nat) (pairs : seq (nat * nat))
    (permutation : nat * nat -> seq nat -> seq nat) :
  training_pairs num_q num_d pairs permutation =
  ([seq xy.1 | xy <- pairs],
   [seq xy.2 :: take 2 (filter [pred c | ((xy.1, c) \notin pairs)
                                         && (c != xy.1)]
                          (permutation xy (arange num_q (num_q + num_d))))
   | xy <- pairs]).
Proof.
rewrite /training_pairs /=.
rewrite (foldl_rcons2 (fun xy => xy.1)
           (fun xy => candidates_loop pairs xy.1
                        (permutation xy (arange num_q (num_q + num_d)))
                        [:: xy.2])) /=.
congr (_, _); apply: eq_map => xy.
by rewrite candidates_loopE.
Qed.

(** X26.  The training data of the script: one anchor and one candidate
    list per pair, in the order of the pairs; every candidate list starts
    with the connected document of its pair, has at most three entries, and
    continues with distinct documents that are not connected to the
    anchor. *)
Theorem training_pairs_rows (num_q num_d : nat) (pairs : seq (nat * nat))
    (permutation : nat * nat -> seq nat -> seq nat) :
  (forall xy s, perm_eq (permutation xy s) s) ->
  let IKs := training_pairs num_q num_d pairs permutation in
  IKs.1 = [seq xy.1 | xy <- pairs]
  /\ size IKs.2 = size pairs
  /\ (forall k, (k < size pairs)%N ->
        let xy := nth (0%N, 0%N) pairs k in
        let row := nth [::] IKs.2 k in
        head 0%N row = xy.2
        /\ (size row <= 3)%N
        /\ uniq (behead row)
        /\ (forall c, c \in behead row ->
              (xy.1, c) \notin pairs /\ (num_q <= c < num_q + num_d)%N)).
Proof.
move=> Hperm IKs; rewrite /IKs training_pairsE /=; split=> //.
split; first by rewrite size_map.
move=> k Hk; rewrite (nth_map (0%N, 0%N)) //.
set xy := nth (0%N, 0%N) pairs k; rewrite /=; split=> //.
have Hu : uniq (permutation xy (arange num_q (num_q + num_d))).
  by rewrite (perm_uniq (Hperm _ _)); apply: iota_uniq.
split; first by rewrite ltnS size_take_min geq_minl.
split; first by apply: take_uniq; apply: filter_uniq.
move=> c /mem_take; rewrite mem_filter /= => /andP [/andP [Hc _]].
by rewrite (perm_mem (Hperm _ _)) mem_arange.
Qed.

(** X26 with one question, three documents and the single edge (0, 1). *)
Lemma training_pairs_rows_witness :
  let pairs := [:: (0%N, 1%N)] in
  let permutation := fun (_ : nat * nat) (s : seq nat) => s in
  let IKs := training_pairs 1 3 pairs permutation in
  IKs.1 = [seq xy.1 | xy <- pairs]
  /\ size IKs.2 = size pairs
  /\ (forall k, (k < size pairs)%N ->
        let xy := nth (0%N, 0%N) pairs k in
        let row := nth [::] IKs.2 k in
        head 0%N row = xy.2
        /\ (size row <= 3)%N
        /\ uniq (behead row)
        /\ (forall c, c \in behead row ->
              (xy.1, c) \notin pairs /\ (1 <= c < 1 + 3)%N)).
Proof. by apply: training_pairs_rows => xy s; apply: perm_refl. Defined.
